(** * HardwareMixer: the serial mixer session and the PulseAudio volume router

    A shallow embedding of [main.py]: the [Mixer] class (device discovery,
    handshake, frame decoding, snapshot) and the volume-set loop of
    [PulseAudioConnection.listen].

    Conventions.
    - Python floats are IEEE binary64 numbers: they are Rocq's primitive
      [float]s, and [/] on them is the same correctly rounded division.
    - Python list objects are mutable and shared: they live in a heap of
      list objects, and a variable holds a location.
    - The serial link and the sound server are outside the program: what
      they answer is given by a script (the results of the calls made, in
      order), and a script that ends while the program is still polling
      or waiting leaves the program [Blocked].
    - The mixer thread and the main thread share the stored list; they
      interleave between the stores of [read_volumes] and between the
      entries that [copy.deepcopy] copies ([Threads]).
    - Sleeps and PulseAudio event masks carry no data and are left out. *)

From Stdlib Require Import ZArith List String Ascii DecimalString Floats Uint63 Strings.Byte Lia.
From stdpp Require Import base tactics option list strings gmap relations.

Set Warnings "-inexact-float".
Open Scope Z_scope.

(** ** Python values and exceptions *)

Module Py.

Inductive exn : Type :=
| SerialException
| IndexError
| TypeError
| PulseOperationFailed.

#[global] Instance exn_eq_dec : EqDecision exn.
Proof. solve_decision. Defined.

#[global] Instance byte_eq_dec : EqDecision byte := Byte.byte_eq_dec.

(** What a call does: it returns, it raises, or it never comes back within
    the part of the outside world that the script describes. *)
Inductive outcome (A : Type) : Type :=
| Returned (a : A)
| Raised (e : exn)
| Blocked.
Arguments Returned {A} a.
Arguments Raised {A} e.
Arguments Blocked {A}.

(** A computation over a mutable state [S]. *)
Definition M (S A : Type) : Type := S -> outcome A * S.

Definition ret {S A} (a : A) : M S A := fun s => (Returned a, s).

Definition raise {S A} (e : exn) : M S A := fun s => (Raised e, s).

Definition bind {S A B} (c : M S A) (k : A -> M S B) : M S B :=
  fun s =>
    match c s with
    | (Returned a, s') => k a s'
    | (Raised e, s') => (Raised e, s')
    | (Blocked, s') => (Blocked, s')
    end.

Definition gets {S A} (f : S -> A) : M S A := fun s => (Returned (f s), s).

Definition modify {S} (f : S -> S) : M S unit := fun s => (Returned tt, f s).

(** [try: c  except e: h] *)
Definition try_except {S A} (c : M S A) (e : exn) (h : M S A) : M S A :=
  fun s =>
    match c s with
    | (Raised e', s') => if decide (e' = e) then h s' else (Raised e', s')
    | r => r
    end.

(** [l[i]] for a Python int [i]: negative indices count from the end. *)
Definition getitem {A} (l : list A) (i : Z) : option A :=
  let n := Z.of_nat (length l) in
  if (0 <=? i) && (i <? n) then l !! Z.to_nat i
  else if (- n <=? i) && (i <? 0) then l !! Z.to_nat (n + i)
  else None.

(** [l[i] = x] for [i] in [range(...)], an index that is never negative:
    [None] stands for IndexError. *)
Definition setitem {A} (l : list A) (i : nat) (x : A) : option (list A) :=
  if decide (i < length l)%nat then Some (<[i := x]> l) else None.

(** [int.from_bytes(bs, 'big')] *)
Definition int_from_bytes_big (bs : list byte) : Z :=
  fold_left (fun acc b => acc * 256 + Z.of_N (Byte.to_N b)) bs 0.

(** [n / 100] for a Python int [n] that a byte can hold: both operands are
    exact as floats, and the quotient is rounded once. *)
Definition truediv_100 (n : Z) : float :=
  (PrimFloat.of_uint63 (Uint63.of_Z n) / 100)%float.

(** [s[:n]] on a [str] *)
Definition str_prefix (n : nat) (s : string) : string := substring 0 n s.

(** [l.index(x)]: the first position of [x]; [None] stands for ValueError. *)
Fixpoint list_index {A} `{EqDecision A} (x : A) (l : list A) : option nat :=
  match l with
  | [] => None
  | y :: rest => if decide (y = x) then Some 0%nat else S <$> list_index x rest
  end.

End Py.
Import Py.

Declare Scope py_scope.
Delimit Scope py_scope with py.
Notation "'do' x <- c ; k" := (bind c (fun x => k))
  (at level 10, x name, c at level 100, k at level 200) : py_scope.
Notation "c ;; k" := (bind c (fun _ => k))
  (at level 100, k at level 200, right associativity) : py_scope.

(** ** The heap of list objects *)

Module Heap.

(* Abbreviations, so that the list lemmas see through them. *)
Abbreviation loc := nat.
Abbreviation t := (list (list float)).

Definition get (h : t) (l : loc) : list float := default [] (h !! l).

Definition alloc (h : t) (v : list float) : loc * t := (length h, h ++ [v]).

Definition set (h : t) (l : loc) (v : list float) : t := <[l := v]> h.

End Heap.

(** ** The serial transport and its script *)

Module Serial.

(** [serial.tools.list_ports] entry: the fields [_connect_mixer] reads.
    Both attributes may be [None]. *)
Record ListPortInfo := {
  device : string;
  subsystem : option string;
  manufacturer : option string
}.

(** Result of one call into an outside library: what it returned, or that
    it raised the library's exception ([serial.SerialException] for the
    serial port, [pulsectl.PulseOperationFailed] for the sound server). *)
Inductive io (A : Type) : Type :=
| Ok (a : A)
| Fail.
Arguments Ok {A} a.
Arguments Fail {A}.

(** What one listed device answers when [_connect_mixer] talks to it. *)
Record Answers := {
  on_open : io unit;                (* serial.Serial(i.device) *)
  on_read_all : io (list byte);     (* read_all() *)
  on_write : io unit;               (* write(b"\0") *)
  on_read1 : io (list byte)         (* read(1), on a port without timeout *)
}.

Definition candidate : Type := ListPortInfo * Answers.

(** One element per call of [comports()]. *)
Definition scans : Type := list (list candidate).

(** The [serial.Serial] object held in [self._port]. *)
Record Port := {
  portstr : option string;
  is_open : bool
}.

Inductive event : Type :=
| EOpen (dev : string)
| EClose (dev : option string)
| EReadAll (dev : string)
| EWrite (dev : string) (bs : list byte)
| ERead (n : Z).

(** [read(n)] returns at most [n] bytes. *)
Definition read_result (n : Z) (bs : list byte) : list byte := take (Z.to_nat n) bs.

End Serial.
Import Serial.

(** ** class Mixer *)

Record Mixer := {
  _volumes : Heap.loc;
  _port : Port;
  _channels : Z
}.

Record State := {
  heap : Heap.t;
  self : Mixer;
  trace : list event
}.

Definition set_heap (h : Heap.t) (s : State) : State :=
  {| heap := h; self := self s; trace := trace s |}.

Definition set_port (p : Port) (s : State) : State :=
  {| heap := heap s;
     self := {| _volumes := _volumes (self s); _port := p; _channels := _channels (self s) |};
     trace := trace s |}.

Definition set_channels (n : Z) (s : State) : State :=
  {| heap := heap s;
     self := {| _volumes := _volumes (self s); _port := _port (self s); _channels := n |};
     trace := trace s |}.

Definition log (e : event) (s : State) : State :=
  {| heap := heap s; self := self s; trace := trace s ++ [e] |}.

(** The list object that [self._volumes] points to. *)
Definition stored (s : State) : list float := Heap.get (heap s) (_volumes (self s)).

Definition magic : list byte := list_byte_of_string "Hardware Mixer".

(** [self._port.close()] *)
Definition close_port (s : State) : State :=
  let p := _port (self s) in
  log (EClose (portstr p)) (set_port {| portstr := portstr p; is_open := false |} s).

(** [i.subsystem == 'usb' and i.manufacturer[:7] == 'Arduino']: [and] is
    short-circuit, and slicing [None] raises TypeError. *)
Definition is_arduino (i : ListPortInfo) : exn + bool :=
  if bool_decide (subsystem i = Some "usb"%string) then
    match manufacturer i with
    | None => inl TypeError
    | Some m => inr (bool_decide (str_prefix 7 m = "Arduino"%string))
    end
  else inr false.

Open Scope py_scope.

(** The body of the [for] loop of [_connect_mixer] for one listed device.
    [Returned true] is the [return] statement, [Returned false] falls
    through to the next device. *)
Definition try_port (c : candidate) : M State bool :=
  let (i, a) := c in
  match is_arduino i with
  | inl e => raise e
  | inr false => ret false
  | inr true =>
      match on_open a with
      | Fail => raise SerialException
      | Ok _ =>
          modify (fun s => log (EOpen (device i))
                    (set_port {| portstr := Some (device i); is_open := true |} s)) ;;
          match on_read_all a with
          | Fail => modify (log (EReadAll (device i))) ;; raise SerialException
          | Ok bs =>
              modify (log (EReadAll (device i))) ;;
              if bool_decide (take 14 bs = magic) then
                match on_write a with
                | Fail => modify (log (EWrite (device i) [x00])) ;; raise SerialException
                | Ok _ =>
                    modify (log (EWrite (device i) [x00])) ;;
                    match on_read1 a with
                    | Fail => modify (log (ERead 1)) ;; raise SerialException
                    | Ok b =>
                        modify (log (ERead 1)) ;;
                        modify (set_channels (int_from_bytes_big (read_result 1 b))) ;;
                        ret true
                    end
                end
              else
                modify close_port ;; ret false
          end
      end
  end.

(** [for i in serial.tools.list_ports.comports(): ...] *)
Fixpoint try_ports (cs : list candidate) : M State bool :=
  match cs with
  | [] => ret false
  | c :: rest =>
      do found <- try_port c;
      if found then ret true else try_ports rest
  end.

(** [while True:] one [comports()] call per round, until the [return]. *)
Fixpoint scan_loop (sc : scans) : M State unit :=
  match sc with
  | [] => fun s => (Blocked, s)
  | cs :: rest =>
      do found <- try_ports cs;
      if found then ret tt else scan_loop rest
  end.

(** [Mixer._connect_mixer]. A [serial.Serial] object is always true, so the
    [close()] of the first two lines always runs. *)
Definition _connect_mixer (sc : scans) : M State unit :=
  modify close_port ;; scan_loop sc.

(** [b / 100] for a byte [b]. *)
Definition decode (b : byte) : float := truediv_100 (Z.of_N (Byte.to_N b)).

(** One round of [for i in range(self._channels)]:
    [self._volumes[i] = values[i] / 100]. *)
Definition store_volume (values : list byte) (i : nat) : M State unit :=
  fun s =>
    match values !! i with
    | None => (Raised IndexError, s)
    | Some b =>
        match setitem (stored s) i (decode b) with
        | None => (Raised IndexError, s)
        | Some l => (Returned tt, set_heap (Heap.set (heap s) (_volumes (self s)) l) s)
        end
    end.

Fixpoint store_volumes (values : list byte) (idx : list nat) : M State unit :=
  match idx with
  | [] => ret tt
  | i :: rest => store_volume values i ;; store_volumes values rest
  end.

(** [Mixer.read_volumes]. [frame] is what [self._port.read(self._channels)]
    does; [sc] is what the serial ports answer if the mixer has to be found
    again. *)
Definition read_volumes (frame : io (list byte)) (sc : scans) : M State unit :=
  try_except
    (do n <- gets (fun s => _channels (self s));
     modify (log (ERead n)) ;;
     match frame with
     | Fail => raise SerialException
     | Ok bs =>
         let values := read_result n bs in
         store_volumes values (seq 0 (Z.to_nat n))
     end)
    SerialException
    (_connect_mixer sc).

(** [Mixer.get_volumes], as one call with no store of the mixer thread
    inside it: [copy.deepcopy] builds a new list object with the same
    floats. [Threads] has the copy entry by entry. *)
Definition get_volumes : M State Heap.loc :=
  fun s =>
    let (l, h) := Heap.alloc (heap s) (stored s) in
    (Returned l, set_heap h s).

(** [Mixer.__init__]: the fields before [_connect_mixer] is called. The list
    starts as [[0, 0]]; the two ints are written as the floats they equal. *)
Definition init_state : State :=
  {| heap := [[0%float; 0%float]];
     self := {| _volumes := 0%nat;
                _port := {| portstr := None; is_open := false |};
                _channels := 0 |};
     trace := [] |}.

(** [Mixer()]: [self._connect_mixer()] and then [self.read_volumes()]. *)
Definition Mixer_init (sc : scans) (frame : io (list byte)) (sc' : scans) : outcome unit * State :=
  (_connect_mixer sc ;; read_volumes frame sc') init_state.

(** ** The sound server *)

Module Pulse.

(** An entry of [sink_input_list()]: its index and
    [proplist.get('application.name')]. *)
Record SinkInput := {
  index : nat;
  application_name : option string
}.

(** An enumerated stream, with what the server answers to a volume-set on
    it: [Fail] is a stream that has vanished since the enumeration. *)
Definition listed : Type := SinkInput * io unit.

(** The volumes the server holds, and every [volume_set_all_chans] call
    made, in order. *)
Record Server := {
  volume : gmap nat float;
  calls : list (nat * float)
}.

Definition volume_set_all_chans (sink : listed) (v : float) : M Server unit :=
  fun p =>
    let i := index (fst sink) in
    match snd sink with
    | Ok _ => (Returned tt, {| volume := <[i := v]> (volume p); calls := calls p ++ [(i, v)] |})
    | Fail => (Raised PulseOperationFailed, {| volume := volume p; calls := calls p ++ [(i, v)] |})
    end.

End Pulse.
Import Pulse.

(** ** The routing table: the globals [channels] and [any_controller] *)

Definition default_channels : list (list string) :=
  [["Tauon Music Box"; "Firefox"; "VLC media player (LibVLC 3.0.18)"; "WEBRTC VoiceEngine"];
   ["ANY"]]%string.

(** [channels.index(["ANY"]) + 1], or [False] ([None]) on ValueError. *)
Definition any_controller_of (channels : list (list string)) : option Z :=
  match list_index ["ANY"%string] channels with
  | Some i => Some (Z.of_nat i + 1)
  | None => None
  end.

(** ** PulseAudioConnection.listen *)

(** [for i, channel_apps in enumerate(channels): if app_name in channel_apps]:
    the index at which the loop breaks, [None] when it runs into [else]. *)
Fixpoint first_match (app_name : string) (i : Z) (channels : list (list string)) : option Z :=
  match channels with
  | [] => None
  | channel_apps :: rest =>
      if bool_decide (app_name ∈ channel_apps) then Some i
      else first_match app_name (i + 1) rest
  end.

(** [self._pulse.volume_set_all_chans(sink, volumes[j])] *)
Definition set_from (volumes : list float) (j : Z) (sink : listed) : M Server unit :=
  match getitem volumes j with
  | None => raise IndexError
  | Some v => volume_set_all_chans sink v
  end.

(** The body of [for sink in self._pulse.sink_input_list()]. *)
Definition route_sink (channels : list (list string)) (any_controller : option Z)
    (volumes : list float) (sink : listed) : M Server unit :=
  match application_name (fst sink) with
  | None => ret tt
  | Some app_name =>
      if String.eqb app_name "" then ret tt
      else
        try_except
          match first_match app_name 0 channels with
          | Some i => set_from volumes i sink
          | None =>
              match any_controller with
              | Some c => set_from volumes (c - 1) sink
              | None => ret tt
              end
          end
          PulseOperationFailed
          (ret tt)
  end.

Fixpoint route_sinks (channels : list (list string)) (any_controller : option Z)
    (volumes : list float) (sinks : list listed) : M Server unit :=
  match sinks with
  | [] => ret tt
  | sink :: rest =>
      route_sink channels any_controller volumes sink ;;
      route_sinks channels any_controller volumes rest
  end.

(** [listen]: one element of [rounds] per turn of [while True], holding the
    list that [self._mixer.get_volumes()] returned and the streams that
    [sink_input_list()] enumerated in that turn. The loop has no exit. The
    calls outside the [try] ([sink_input_list], [event_mask_set],
    [event_listen]) are followed where they return: a turn in which one of
    them raises is not among the [rounds]. *)
Fixpoint listen (channels : list (list string)) (any_controller : option Z)
    (rounds : list (list float * list listed)) : M Server unit :=
  match rounds with
  | [] => fun p => (Blocked, p)
  | (volumes, sinks) :: rest =>
      route_sinks channels any_controller volumes sinks ;;
      listen channels any_controller rest
  end.

(** [_mixer_listener]: one element of [reads] per turn of [while True];
    [event_listen_stop()] is followed where it returns. *)
Fixpoint _mixer_listener (reads : list (io (list byte) * scans)) : M State unit :=
  match reads with
  | [] => fun s => (Blocked, s)
  | (frame, sc) :: rest => read_volumes frame sc ;; _mixer_listener rest
  end.

Close Scope py_scope.

(** ** Auxiliary definitions for the statements *)

(** What the server looks like after [volume_set_all_chans(sink, v)] inside
    the [try] of the loop body. *)
Definition after_set (sink : listed) (v : float) (p : Server) : Server :=
  {| volume := match snd sink with
               | Ok _ => <[index (fst sink) := v]> (volume p)
               | Fail => volume p
               end;
     calls := calls p ++ [(index (fst sink), v)] |}.

(** A call made for a stream of the enumeration that has a non-empty name. *)
Definition call_of (sinks : list listed) (c : nat * float) : Prop :=
  exists sink name,
    sink ∈ sinks /\ index (fst sink) = fst c /\
    application_name (fst sink) = Some name /\ name <> ""%string.

(** A computation that leaves the heap and [self._volumes] alone. *)
Definition keeps_volumes {A} (c : M State A) : Prop :=
  forall s, heap (snd (c s)) = heap s /\ _volumes (self (snd (c s))) = _volumes (self s).

(** [self._volumes] names a list object of the heap. *)
Definition well_formed (s : State) : Prop := (_volumes (self s) < length (heap s))%nat.

(** The state once the candidate [i] has been opened and its preamble read. *)
Definition probed (i : ListPortInfo) (s : State) : State :=
  log (EReadAll (device i))
    (log (EOpen (device i)) (set_port {| portstr := Some (device i); is_open := true |} s)).

(** The state at the [return] of [_connect_mixer], with channel count [n]. *)
Definition connected (i : ListPortInfo) (n : Z) (s : State) : State :=
  set_channels n (log (ERead 1) (log (EWrite (device i) [x00]) (probed i s))).

(** A listed device that behaves as a mixer reporting [n] channels. *)
Definition conforming (i : ListPortInfo) (a : Answers) (n : byte) : Prop :=
  is_arduino i = inr true /\ on_open a = Ok tt /\
  (exists bs, on_read_all a = Ok bs /\ take 14 bs = magic) /\
  on_write a = Ok tt /\ on_read1 a = Ok [n].

(** A listed device that [_connect_mixer] does not open. *)
Definition ignored (c : candidate) : Prop := is_arduino (fst c) = inr false.

(** A listed device after which the [for] loop of [_connect_mixer] goes on
    to the next one: it is not opened, or its preamble does not match. *)
Definition passed_over (c : candidate) : Prop :=
  forall s, fst (try_port c s) = Returned false.

(** ** The two threads *)

Module Threads.

(** The main thread inside [copy.deepcopy(self._volumes)]. For a list,
    [copy.deepcopy] makes an empty list [y] and appends to it the copy of
    each element of the argument, which it walks by index while the index
    is below the length; a float is its own copy. [Copying y i] is that
    loop about to look at index [i]. *)
Inductive reader : Type :=
| Idle
| Copying (y : Heap.loc) (i : nat).

(** The mixer thread is either inside [self._port.read] ([writer] is
    [None]) or inside the [for] loop of [read_volumes], with the bytes read
    and the indices still to store. The main thread is in [copier]; [seen]
    are the lists that its calls of [get_volumes] have returned. *)
Record config := {
  st : State;
  writer : option (list byte * list nat);
  copier : reader;
  seen : list Heap.loc
}.

(** One step of either thread while the frame [bs] arrives: the read
    returns; one [self._volumes[i] = values[i] / 100]; the start of a copy;
    the copy of one element; the end of a copy, when the index has reached
    the length of the stored list. *)
Inductive step (bs : list byte) : config -> config -> Prop :=
| step_read (s : State) (r : reader) (ls : list Heap.loc) :
    step bs
      {| st := s; writer := None; copier := r; seen := ls |}
      {| st := log (ERead (_channels (self s))) s;
         writer := Some (read_result (_channels (self s)) bs,
                         seq 0 (Z.to_nat (_channels (self s))));
         copier := r; seen := ls |}
| step_store (vs : list byte) (i : nat) (rest : list nat) (s s' : State)
    (r : reader) (ls : list Heap.loc) :
    store_volume vs i s = (Returned tt, s') ->
    step bs
      {| st := s; writer := Some (vs, i :: rest); copier := r; seen := ls |}
      {| st := s'; writer := Some (vs, rest); copier := r; seen := ls |}
| step_copy_begin (s : State) (w : option (list byte * list nat)) (ls : list Heap.loc) :
    step bs
      {| st := s; writer := w; copier := Idle; seen := ls |}
      {| st := set_heap (snd (Heap.alloc (heap s) [])) s; writer := w;
         copier := Copying (fst (Heap.alloc (heap s) [])) 0; seen := ls |}
| step_copy_element (s : State) (w : option (list byte * list nat)) (y : Heap.loc)
    (i : nat) (v : float) (ls : list Heap.loc) :
    stored s !! i = Some v ->
    step bs
      {| st := s; writer := w; copier := Copying y i; seen := ls |}
      {| st := set_heap (Heap.set (heap s) y (Heap.get (heap s) y ++ [v])) s;
         writer := w; copier := Copying y (S i); seen := ls |}
| step_copy_end (s : State) (w : option (list byte * list nat)) (y : Heap.loc)
    (i : nat) (ls : list Heap.loc) :
    stored s !! i = None ->
    step bs
      {| st := s; writer := w; copier := Copying y i; seen := ls |}
      {| st := s; writer := w; copier := Idle; seen := y :: ls |}.

(** [read_volumes] has been called and waits for the frame; the main thread
    is outside [get_volumes]. *)
Definition in_flight (s : State) : config :=
  {| st := s; writer := None; copier := Idle; seen := [] |}.

(** A list in which the first [k] channels are new and the others old. *)
Definition mixed (k : nat) (bs : list byte) (old : list float) : list float :=
  take k (decode <$> bs) ++ drop k old.



End Threads.
Import Threads.

(** ** Concrete inputs *)

Definition arduino : ListPortInfo :=
  {| device := "/dev/ttyACM0";
     subsystem := Some "usb"%string;
     manufacturer := Some "Arduino (www.arduino.cc)"%string |}.

Definition second_arduino : ListPortInfo :=
  {| device := "/dev/ttyACM1";
     subsystem := Some "usb"%string;
     manufacturer := Some "Arduino LLC"%string |}.

(** A mixer that reports [n] channels. *)
Definition hardware (n : byte) : Answers :=
  {| on_open := Ok tt; on_read_all := Ok magic; on_write := Ok tt; on_read1 := Ok [n] |}.

(** A board that has sent only [sent] by the time its preamble is read. *)
Definition slow_board (sent : list byte) : Answers :=
  {| on_open := Ok tt; on_read_all := Ok sent; on_write := Ok tt; on_read1 := Ok [x02] |}.

(** A port that cannot be opened (busy, or no permission). *)
Definition busy_port : Answers :=
  {| on_open := Fail; on_read_all := Fail; on_write := Fail; on_read1 := Fail |}.

(** The mixer after [__init__] with a two-channel device whose first frame
    is [10, 20]. *)
Definition two_channel_session : State :=
  snd (Mixer_init [[(arduino, hardware x02)]] (Ok [x0a; x14]) []).

Definition scenario_channels : list (list string) := [["Music Player"]; ["ANY"]]%string.

Definition stream (i : nat) (name : option string) (answer : io unit) : listed :=
  ({| index := i; application_name := name |}, answer).

Definition quiet_server : Server := {| volume := ∅; calls := [] |}.


(** ** Definitions for the properties of the whole session *)

(** A volume between 0.0 and 1.0. *)
Definition in_unit_range (v : float) : Prop :=
  (0 <=? v)%float = true /\ (v <=? 1)%float = true.

(** Whether a port is open after the transport events [evs], starting from
    [open]; [None] when a port is opened while one is still open. *)
Fixpoint port_after (open : bool) (evs : list event) : option bool :=
  match evs with
  | [] => Some open
  | EOpen _ :: rest => if open then None else port_after true rest
  | EClose _ :: rest => port_after false rest
  | _ :: rest => port_after open rest
  end.

(** The trace accounts for the state of [self._port]. *)
Definition one_port (s : State) : Prop :=
  port_after false (trace s) = Some (is_open (_port (self s))).

(** A listed device that passes the test of [_connect_mixer]. *)
Definition listed_arduino (sc : scans) (d : string) : Prop :=
  exists cs i a, cs ∈ sc /\ (i, a) ∈ cs /\ device i = d /\ is_arduino i = inr true.

(** The only port that the transport events [evs] open is that of the
    listed device [i], which passes the test of [_connect_mixer]. *)
Definition opens_only (i : ListPortInfo) (e : event) : Prop :=
  forall d, e = EOpen d -> d = device i /\ is_arduino i = inr true.

(** What a scan that starts with the port closed logs: it opens listed
    Arduinos only, it never opens a port while one is open, and it leaves
    the port closed whenever it goes on to the next device ([more]). *)
Definition scans_cleanly {A} (P : event -> Prop) (more : outcome A -> bool)
    (c : M State A) : Prop :=
  forall s,
    is_open (_port (self s)) = false ->
    exists evs,
      trace (snd (c s)) = trace s ++ evs /\
      Forall P evs /\
      port_after false evs = Some (is_open (_port (self (snd (c s))))) /\
      (more (fst (c s)) = true -> is_open (_port (self (snd (c s)))) = false).

(** The loop over the listed devices goes on after [Returned false]. *)
Definition falls_through (o : outcome bool) : bool :=
  match o with
  | Returned false => true
  | _ => false
  end.

(** The only ports that the transport events open are those of Arduinos
    listed in [cs], or in one of the rounds of [sc]. *)
Definition opens_among (cs : list candidate) (e : event) : Prop :=
  forall d, e = EOpen d ->
    exists i a, (i, a) ∈ cs /\ device i = d /\ is_arduino i = inr true.

Definition opens_listed (sc : scans) (e : event) : Prop :=
  forall d, e = EOpen d -> listed_arduino sc d.

(** No loop goes on after [scan_loop]. *)
Definition ends_here (o : outcome unit) : bool := false.

(** A frame read whose bytes, if any came, are all at most 100. *)
Definition conformant_frame (frame : io (list byte)) : Prop :=
  match frame with
  | Ok bs => Forall (fun b => (Byte.to_N b <= 100)%N) bs
  | Fail => True
  end.

(** ** The start of the program: the routing table from the configuration

    [configparser] is outside the program: what [config.get] answers and the
    value of [len(config.items())] are given. A [str] is a [string] with
    one character per code point, all below 256. *)

Module Startup.

(** The two exceptions of [configparser] that [config.get] raises. *)
Inductive config_error : Type :=
| NoSectionError
| NoOptionError.

(** [str(i)] for an index [i] of [range]. *)
Definition py_str (i : nat) : string := NilZero.string_of_uint (Nat.to_uint i).

(** [c.isspace()] for a character below 256: the ASCII blanks and
    separators, NEL and the no-break space. *)
Definition isspace (c : ascii) : bool :=
  let n := nat_of_ascii c in
  ((9 <=? n)%nat && (n <=? 13)%nat) || ((28 <=? n)%nat && (n <=? 32)%nat)
  || (n =? 133)%nat || (n =? 160)%nat.

Fixpoint lstrip (s : string) : string :=
  match s with
  | EmptyString => EmptyString
  | String c rest => if isspace c then lstrip rest else s
  end.

Fixpoint rstrip (s : string) : string :=
  match s with
  | EmptyString => EmptyString
  | String c rest =>
      let r := rstrip rest in
      if isspace c && String.eqb r "" then EmptyString else String c r
  end.

(** [s.strip()] *)
Definition strip (s : string) : string := rstrip (lstrip s).

(** Whether [", "] starts with the characters [c] and [c']. *)
Definition is_sep (c c' : ascii) : bool := Ascii.eqb c "," && Ascii.eqb c' " ".

(** [s.split(", ")], with [cur] the piece read so far: the string is cut at
    each occurrence of the separator, found from the left. *)
Fixpoint split_comma_space (s cur : string) : list string :=
  match s with
  | EmptyString => [cur]
  | String c rest =>
      match rest with
      | String c' rest' =>
          if is_sep c c' then cur :: split_comma_space rest' EmptyString
          else split_comma_space rest (cur +:+ String c EmptyString)
      | EmptyString => split_comma_space rest (cur +:+ String c EmptyString)
      end
  end.

(** [[j.strip() for j in value.split(", ")]] *)
Definition parse_apps (value : string) : list string :=
  strip <$> split_comma_space value EmptyString.

Section WithConfig.

(** [config.get(section, option)] of the configuration that was read. *)
Variable get : string -> string -> config_error + string.

(** The outer list comprehension, over the indices [idx] of [range]: the
    first [config.get] that raises ends it. *)
Fixpoint read_entries (idx : list nat) : config_error + list (list string) :=
  match idx with
  | [] => inr []
  | i :: rest =>
      match get "PINS" (py_str i) with
      | inl e => inl e
      | inr value =>
          match read_entries rest with
          | inl e => inl e
          | inr entries => inr (parse_apps value :: entries)
          end
      end
  end.

(** The global [channels], for [n = len(config.items())]: the entries for
    [range(1, n + 1)], or the built-in table on NoSectionError; a
    NoOptionError is not caught. *)
Definition load_channels (n : nat) : config_error + list (list string) :=
  match read_entries (seq 1 n) with
  | inl NoSectionError => inr default_channels
  | r => r
  end.

(** The globals [channels] and [any_controller]. *)
Definition load_tables (n : nat) : config_error + list (list string) * option Z :=
  match load_channels n with
  | inl e => inl e
  | inr channels => inr (channels, any_controller_of channels)
  end.

End WithConfig.

(** [", ".join(names)] *)
Fixpoint join_comma_space (names : list string) : string :=
  match names with
  | [] => EmptyString
  | [name] => name
  | name :: rest => name +:+ ", " +:+ join_comma_space rest
  end.

(** Whether [", "] occurs in [s]. *)
Fixpoint has_sep (s : string) : bool :=
  match s with
  | EmptyString => false
  | String c rest =>
      match rest with
      | String c' _ => is_sep c c' || has_sep rest
      | EmptyString => false
      end
  end.

(** The last character of a string, if it has one. *)
Fixpoint last_char (s : string) : option ascii :=
  match s with
  | EmptyString => None
  | String c EmptyString => Some c
  | String _ rest => last_char rest
  end.

(** A string that neither starts nor ends with a whitespace character. *)
Definition trimmed (s : string) : Prop :=
  (forall c rest, s = String c rest -> isspace c = false) /\
  (forall c, last_char s = Some c -> isspace c = false).

End Startup.

(** A configuration with the section [PINS] and its options ["1"] and ["2"]. *)
Definition two_option_config (section option : string) : Startup.config_error + string :=
  if String.eqb section "PINS" then
    if String.eqb option "1" then inr "Firefox, VLC media player"%string
    else if String.eqb option "2" then inr "ANY"%string
    else inl Startup.NoOptionError
  else inl Startup.NoSectionError.

(** * Properties *)

(** Membership in a list that is written out. *)
Ltac in_listed :=
  repeat match goal with
         | |- _ ∉ _ => let H := fresh "Hin" in intros H
         | H : _ ∈ _ :: _ |- _ => apply elem_of_cons in H as [H | H]; subst
         | H : _ ∈ [] |- _ => apply elem_of_nil in H; destruct H
         end;
  try discriminate; try congruence.

(** ** Python helpers *)

Lemma getitem_nat {A} (l : list A) (n : nat) : getitem l (Z.of_nat n) = l !! n.
Proof.
  unfold getitem.
  destruct (decide (n < length l)%nat) as [Hlt | Hge].
  - replace (0 <=? Z.of_nat n) with true by (symmetry; apply Z.leb_le; lia).
    replace (Z.of_nat n <? Z.of_nat (length l)) with true by (symmetry; apply Z.ltb_lt; lia).
    simpl. now rewrite Nat2Z.id.
  - replace (Z.of_nat n <? Z.of_nat (length l)) with false by (symmetry; apply Z.ltb_ge; lia).
    replace (Z.of_nat n <? 0) with false by (symmetry; apply Z.ltb_ge; lia).
    rewrite !andb_false_r. symmetry. apply lookup_ge_None. lia.
Qed.

Lemma list_index_found {A} `{EqDecision A} (x : A) (l : list A) (n : nat) :
  l !! n = Some x ->
  (forall j, (j < n)%nat -> l !! j <> Some x) ->
  list_index x l = Some n.
Proof.
  revert n. induction l as [| y l IH]; intros n Hn Hfirst; [done |].
  simpl. destruct n as [| n].
  - simpl in Hn. injection Hn as ->. now rewrite decide_True.
  - rewrite decide_False.
    + rewrite (IH n); [done | exact Hn |].
      intros j Hj. apply (Hfirst (S j)). lia.
    + intros ->. apply (Hfirst 0%nat); [lia | done].
Qed.

Lemma list_index_none {A} `{EqDecision A} (x : A) (l : list A) :
  x ∉ l -> list_index x l = None.
Proof.
  induction l as [| y l IH]; intros Hx; [done |].
  simpl. apply not_elem_of_cons in Hx as [Hne Hx].
  rewrite decide_False by congruence. now rewrite IH.
Qed.

(** ** The routing of one stream *)

Section Routing.

Variable channels : list (list string).
Variable any_controller : option Z.
Variable volumes : list float.

Lemma first_match_found (name : string) (k : Z) (chs : list (list string))
    (n : nat) (apps : list string) :
  chs !! n = Some apps ->
  name ∈ apps ->
  (forall j apps', (j < n)%nat -> chs !! j = Some apps' -> name ∉ apps') ->
  first_match name k chs = Some (k + Z.of_nat n).
Proof.
  revert k n. induction chs as [| a chs IH]; intros k n Hn Hin Hfirst; [done |].
  simpl. destruct n as [| n].
  - simpl in Hn. injection Hn as ->. rewrite bool_decide_eq_true_2 by done.
    f_equal. lia.
  - rewrite bool_decide_eq_false_2 by (apply (Hfirst 0%nat); [lia | done]).
    rewrite (IH (k + 1) n); [f_equal; lia | exact Hn | exact Hin |].
    intros j apps' Hj. apply (Hfirst (S j)). lia.
Qed.


Lemma guarded_set (sink : listed) (j : Z) (v : float) (p : Server) :
  getitem volumes j = Some v ->
  try_except (set_from volumes j sink) PulseOperationFailed (ret tt) p
  = (Returned tt, after_set sink v p).
Proof.
  intros Hv. unfold try_except, set_from, volume_set_all_chans, after_set.
  rewrite Hv. destruct sink as [i [[] |]]; reflexivity.
Qed.

Lemma guarded_set_out_of_range (sink : listed) (j : Z) (p : Server) :
  getitem volumes j = None ->
  try_except (set_from volumes j sink) PulseOperationFailed (ret tt) p
  = (Raised IndexError, p).
Proof.
  intros Hv. unfold try_except, set_from. now rewrite Hv.
Qed.

(** A stream without a usable name is passed over. *)
Lemma route_sink_unnamed (sink : listed) (p : Server) :
  application_name (fst sink) = None \/ application_name (fst sink) = Some ""%string ->
  route_sink channels any_controller volumes sink p = (Returned tt, p).
Proof.
  intros [H | H]; unfold route_sink; now rewrite H.
Qed.

(** Every stream either leaves the server as it is, or adds exactly one call,
    for its own index, and then it has a non-empty name. *)
Lemma route_sink_calls (sink : listed) (p : Server) :
  let r := route_sink channels any_controller volumes sink p in
  snd r = p \/
  exists v name,
    snd r = after_set sink v p /\ fst r = Returned tt /\
    application_name (fst sink) = Some name /\ name <> ""%string.
Proof.
  unfold route_sink.
  destruct (application_name (fst sink)) as [name |] eqn:Hname; [| now left].
  destruct (String.eqb name "") eqn:Hempty; [now left |].
  apply String.eqb_neq in Hempty.
  assert (Hcase : forall j,
    let r := try_except (set_from volumes j sink) PulseOperationFailed (ret tt) p in
    snd r = p \/ exists v name0, snd r = after_set sink v p /\ fst r = Returned tt /\
      Some name = Some name0 /\ name0 <> ""%string).
  { intros j. destruct (getitem volumes j) as [v |] eqn:Hv.
    - right. exists v, name. now rewrite (guarded_set _ _ _ _ Hv).
    - left. now rewrite (guarded_set_out_of_range _ _ _ Hv). }
  destruct (first_match name 0 channels) as [i |]; [apply Hcase |].
  destruct any_controller as [c |]; [apply Hcase | now left].
Qed.

End Routing.

(** ** The loop over the streams, and the outer loop *)

Section Loops.

Variable channels : list (list string).
Variable any_controller : option Z.

Lemma route_sinks_app (volumes : list float) (pre post : list listed) (p : Server) :
  route_sinks channels any_controller volumes (pre ++ post) p
  = bind (route_sinks channels any_controller volumes pre)
         (fun _ => route_sinks channels any_controller volumes post) p.
Proof.
  revert p. induction pre as [| sink pre IH]; intros p; [done |].
  simpl. unfold bind.
  destruct (route_sink channels any_controller volumes sink p) as [[[] | e |] p']; try done.
Qed.

Lemma route_sinks_calls (volumes : list float) (sinks : list listed) (p : Server) :
  exists extra,
    calls (snd (route_sinks channels any_controller volumes sinks p)) = calls p ++ extra /\
    Forall (call_of sinks) extra.
Proof.
  revert p. induction sinks as [| sink sinks IH]; intros p.
  - exists []. simpl. now rewrite app_nil_r.
  - simpl. unfold bind.
    pose proof (route_sink_calls channels any_controller volumes sink p) as Hone.
    destruct (route_sink channels any_controller volumes sink p) as [o p'] eqn:Hr.
    simpl in Hone.
    assert (Hrest : forall extra, Forall (call_of sinks) extra ->
                                  Forall (call_of (sink :: sinks)) extra).
    { intros extra Hall. eapply Forall_impl; [exact Hall |].
      intros c (s0 & n0 & Hin & Hrest).
      exists s0, n0. split; [now right | exact Hrest]. }
    destruct Hone as [-> | (v & name & -> & Ho & Hname & Hne)].
    + destruct o as [[] | e |].
      * destruct (IH p) as (extra & Hc & Hall). exists extra. split; [exact Hc | auto].
      * exists []. simpl. now rewrite app_nil_r.
      * exists []. simpl. now rewrite app_nil_r.
    + simpl in Ho. subst o.
      destruct (IH (after_set sink v p)) as (extra & Hc & Hall).
      exists ((index (fst sink), v) :: extra). split.
      * rewrite Hc. simpl. now rewrite <- app_assoc.
      * constructor; [| auto]. exists sink, name. split; [left | done].
Qed.

Lemma listen_calls (rounds : list (list float * list listed)) (p : Server) :
  exists extra,
    calls (snd (listen channels any_controller rounds p)) = calls p ++ extra /\
    Forall (fun c => exists volumes sinks, (volumes, sinks) ∈ rounds /\ call_of sinks c) extra.
Proof.
  revert p. induction rounds as [| [volumes sinks] rounds IH]; intros p.
  - exists []. simpl. now rewrite app_nil_r.
  - simpl. unfold bind.
    destruct (route_sinks_calls volumes sinks p) as (e1 & Hc1 & Hall1).
    assert (Hhere : Forall (fun c => exists vs ss,
                       (vs, ss) ∈ (volumes, sinks) :: rounds /\ call_of ss c) e1).
    { eapply Forall_impl; [exact Hall1 |]. intros c Hc. exists volumes, sinks.
      split; [left | exact Hc]. }
    destruct (route_sinks channels any_controller volumes sinks p) as [o p'].
    simpl in Hc1.
    destruct o as [[] | e |].
    + destruct (IH p') as (e2 & Hc2 & Hall2). exists (e1 ++ e2). split.
      * rewrite Hc2, Hc1. now rewrite <- app_assoc.
      * apply Forall_app. split; [exact Hhere |].
        eapply Forall_impl; [exact Hall2 |]. intros c (vs & ss & Hin & Hc).
        exists vs, ss. split; [now right | exact Hc].
    + exists e1. now split.
    + exists e1. now split.
Qed.

End Loops.

(** ** Claims about the volume router *)

(** C9. A stream whose application name is absent gets no volume-set call:
    the loop body passes it over, and over all turns of [listen] no call
    carries the index of a stream that was enumerated without a name. *)
Theorem nameless_stream_gets_no_call (channels : list (list string))
    (any_controller : option Z) (rounds : list (list float * list listed))
    (p : Server) (idx : nat) :
  (forall volumes sinks sink,
      (volumes, sinks) ∈ rounds -> sink ∈ sinks ->
      index (fst sink) = idx -> application_name (fst sink) = None) ->
  (forall volumes sink p',
      application_name (fst sink) = None ->
      route_sink channels any_controller volumes sink p' = (Returned tt, p')) /\
  exists extra,
    calls (snd (listen channels any_controller rounds p)) = calls p ++ extra /\
    forall v, (idx, v) ∉ extra.
Proof.
  intros Hnameless. split.
  - intros volumes sink p' Hnone. apply route_sink_unnamed. now left.
  - destruct (listen_calls channels any_controller rounds p) as (extra & Hc & Hall).
    exists extra. split; [exact Hc |].
    intros v Hin. rewrite Forall_forall in Hall.
    destruct (Hall _ Hin) as (volumes & sinks & Hround & sink & name & Hsink & Hidx & Hname & _).
    simpl in Hidx. rewrite (Hnameless volumes sinks sink Hround Hsink Hidx) in Hname.
    discriminate.
Qed.

(** C8. When the volume-set call made for a stream fails because the stream
    has vanished, the failure is swallowed: the loop body returns normally,
    the server's volumes are as before, the remaining streams of the
    enumeration are processed, and [listen] goes on with its next turn. *)
Theorem vanished_stream_is_skipped (channels : list (list string))
    (any_controller : option Z) (volumes : list float)
    (pre post : list listed) (sink : listed)
    (rounds : list (list float * list listed)) (p p1 : Server) (v : float) :
  route_sinks channels any_controller volumes pre p = (Returned tt, p1) ->
  snd sink = Fail ->
  calls (snd (route_sink channels any_controller volumes sink p1))
    = calls p1 ++ [(index (fst sink), v)] ->
  let p2 := {| volume := volume p1; calls := calls p1 ++ [(index (fst sink), v)] |} in
  route_sink channels any_controller volumes sink p1 = (Returned tt, p2) /\
  route_sinks channels any_controller volumes (pre ++ sink :: post) p
    = route_sinks channels any_controller volumes post p2 /\
  listen channels any_controller ((volumes, pre ++ sink :: post) :: rounds) p
    = bind (route_sinks channels any_controller volumes post)
           (fun _ => listen channels any_controller rounds) p2.
Proof.
  intros Hpre Hfail Hcall p2.
  assert (Hsink : route_sink channels any_controller volumes sink p1 = (Returned tt, p2)).
  { pose proof (route_sink_calls channels any_controller volumes sink p1) as Hone.
    destruct (route_sink channels any_controller volumes sink p1) as [o p'].
    simpl in Hone, Hcall.
    destruct Hone as [-> | (v' & name & -> & -> & _)].
    - apply (f_equal length) in Hcall. rewrite length_app in Hcall. simpl in Hcall. lia.
    - unfold after_set in *. simpl in Hcall. apply app_inj_tail in Hcall as [_ Hv].
      injection Hv as ->. now rewrite Hfail. }
  assert (Hall : route_sinks channels any_controller volumes (pre ++ sink :: post) p
                 = route_sinks channels any_controller volumes post p2).
  { rewrite route_sinks_app. unfold bind at 1. rewrite Hpre. simpl.
    unfold bind at 1. now rewrite Hsink. }
  repeat split; [exact Hsink | exact Hall |].
  simpl. unfold bind at 1. rewrite Hall. reflexivity.
Qed.




Lemma nameless_stream_gets_no_call_witness :
  exists extra,
    calls (snd (listen scenario_channels (any_controller_of scenario_channels)
                  [([0.3%float; 0.9%float],
                    [stream 1 (Some "Music Player"%string) (Ok tt); stream 3 None (Ok tt)])]
                  quiet_server))
    = calls quiet_server ++ extra /\
    forall v, (3%nat, v) ∉ extra.
Proof.
  apply (nameless_stream_gets_no_call scenario_channels (any_controller_of scenario_channels)
           [([0.3%float; 0.9%float],
             [stream 1 (Some "Music Player"%string) (Ok tt); stream 3 None (Ok tt)])]
           quiet_server 3%nat).
  intros volumes sinks sink Hround Hsink Hidx.
  in_listed. injection Hround as -> ->. in_listed. reflexivity.
Defined.

Lemma vanished_stream_is_skipped_witness :
  route_sinks scenario_channels (any_controller_of scenario_channels) [0.3%float; 0.9%float]
    [stream 1 (Some "Music Player"%string) (Ok tt);
     stream 2 (Some "Browser"%string) Fail;
     stream 4 (Some "Game"%string) (Ok tt)] quiet_server
  = (Returned tt,
     {| volume := {[1%nat := 0.3%float; 4%nat := 0.9%float]};
        calls := [(1%nat, 0.3%float); (2%nat, 0.9%float); (4%nat, 0.9%float)] |}).
Proof.
  refine (eq_trans (proj1 (proj2 (vanished_stream_is_skipped scenario_channels
             (any_controller_of scenario_channels) [0.3%float; 0.9%float]
             [stream 1 (Some "Music Player"%string) (Ok tt)]
             [stream 4 (Some "Game"%string) (Ok tt)]
             (stream 2 (Some "Browser"%string) Fail)
             []
             quiet_server
             {| volume := {[1%nat := 0.3%float]}; calls := [(1%nat, 0.3%float)] |}
             0.9%float eq_refl eq_refl eq_refl))) _).
  vm_compute. reflexivity.
Defined.

(** ** The mixer session *)

Create HintDb frame.

Lemma keeps_ret {A} (a : A) : keeps_volumes (ret a).
Proof. now intros s. Qed.

Lemma keeps_raise {A} (e : exn) : keeps_volumes (@raise State A e).
Proof. now intros s. Qed.

Lemma keeps_blocked {A} : keeps_volumes (fun s : State => (@Blocked A, s)).
Proof. now intros s. Qed.

Lemma keeps_bind {A B} (c : M State A) (k : A -> M State B) :
  keeps_volumes c -> (forall a, keeps_volumes (k a)) -> keeps_volumes (bind c k).
Proof.
  intros Hc Hk s. unfold bind. specialize (Hc s).
  destruct (c s) as [[a | e |] s1]; simpl in Hc; try exact Hc.
  destruct (Hk a s1) as [H1 H2]. rewrite H1, H2. exact Hc.
Qed.

Lemma keeps_log (e : event) : keeps_volumes (modify (log e)).
Proof. now intros s. Qed.

Lemma keeps_set_port (e : event) (p : Port) :
  keeps_volumes (modify (fun s => log e (set_port p s))).
Proof. now intros s. Qed.

Lemma keeps_close_port : keeps_volumes (modify close_port).
Proof. now intros s. Qed.

Lemma keeps_set_channels (n : Z) : keeps_volumes (modify (set_channels n)).
Proof. now intros s. Qed.

#[global] Hint Resolve keeps_ret keeps_raise keeps_blocked keeps_log keeps_set_port
  keeps_close_port keeps_set_channels : frame.

Lemma keeps_try_port (c : candidate) : keeps_volumes (try_port c).
Proof.
  destruct c as [i a]. unfold try_port.
  destruct (is_arduino i) as [e | []]; auto with frame.
  destruct (on_open a) as [u |]; auto with frame.
  apply keeps_bind; [auto with frame | intros _].
  destruct (on_read_all a) as [bs |]; [| apply keeps_bind; auto with frame].
  apply keeps_bind; [auto with frame | intros _].
  destruct (bool_decide (take 14 bs = magic)); [| apply keeps_bind; auto with frame].
  destruct (on_write a) as [u' |]; [| apply keeps_bind; auto with frame].
  apply keeps_bind; [auto with frame | intros _].
  destruct (on_read1 a) as [b |]; [| apply keeps_bind; auto with frame].
  repeat (apply keeps_bind; [auto with frame | intros _]). auto with frame.
Qed.

Lemma keeps_try_ports (cs : list candidate) : keeps_volumes (try_ports cs).
Proof.
  induction cs as [| c cs IH]; simpl; [auto with frame |].
  apply keeps_bind; [apply keeps_try_port | intros []; auto with frame].
Qed.

Lemma keeps_scan_loop (sc : scans) : keeps_volumes (scan_loop sc).
Proof.
  induction sc as [| cs sc IH]; simpl; [auto with frame |].
  apply keeps_bind; [apply keeps_try_ports | intros []; auto with frame].
Qed.

Lemma keeps_connect (sc : scans) : keeps_volumes (_connect_mixer sc).
Proof.
  unfold _connect_mixer. apply keeps_bind; [auto with frame | intros _; apply keeps_scan_loop].
Qed.

Lemma keeps_stored {A} (c : M State A) (s : State) :
  keeps_volumes c -> stored (snd (c s)) = stored s.
Proof. intros Hc. unfold stored. destruct (Hc s) as [-> ->]. reflexivity. Qed.

Lemma stored_set_heap (s : State) (l : list float) :
  well_formed s ->
  stored (set_heap (Heap.set (heap s) (_volumes (self s)) l) s) = l.
Proof.
  intros Hwf. unfold stored, Heap.get, Heap.set, set_heap. cbn [heap self].
  now rewrite list_lookup_insert_eq.
Qed.

Lemma store_volume_returned (values : list byte) (i : nat) (s s' : State) :
  well_formed s ->
  store_volume values i s = (Returned tt, s') ->
  exists b,
    values !! i = Some b /\ (i < length (stored s))%nat /\
    s' = set_heap (Heap.set (heap s) (_volumes (self s)) (<[i := decode b]> (stored s))) s /\
    stored s' = <[i := decode b]> (stored s) /\
    well_formed s'.
Proof.
  intros Hwf. unfold store_volume, setitem.
  destruct (values !! i) as [b |]; [| discriminate].
  destruct (decide (i < length (stored s))%nat) as [Hlt |]; [| discriminate].
  intros [= <-]. exists b. repeat split; try done.
  - now apply stored_set_heap.
  - unfold well_formed, Heap.set. simpl. now rewrite length_insert.
Qed.

(** Whatever a round of the decoding loop does, the stored list keeps its
    length. *)
Lemma store_volume_length (values : list byte) (i : nat) (s : State) :
  well_formed s ->
  well_formed (snd (store_volume values i s)) /\
  length (stored (snd (store_volume values i s))) = length (stored s).
Proof.
  intros Hwf.
  destruct (store_volume values i s) as [[[] | e |] s'] eqn:Hr.
  - destruct (store_volume_returned _ _ _ _ Hwf Hr) as (b & _ & _ & _ & Hst & Hwf').
    simpl. rewrite Hst, length_insert. done.
  - unfold store_volume, setitem in Hr.
    destruct (values !! i); [| now injection Hr as _ <-].
    destruct (decide _); [discriminate | now injection Hr as _ <-].
  - unfold store_volume, setitem in Hr.
    destruct (values !! i); [| discriminate].
    destruct (decide _); discriminate.
Qed.

Lemma store_volumes_length (values : list byte) (idx : list nat) (s : State) :
  well_formed s ->
  well_formed (snd (store_volumes values idx s)) /\
  length (stored (snd (store_volumes values idx s))) = length (stored s).
Proof.
  revert s. induction idx as [| i idx IH]; intros s Hwf; [done |].
  simpl. unfold bind.
  destruct (store_volume_length values i s Hwf) as [Hwf' Hlen].
  destruct (store_volume values i s) as [[[] | e |] s']; simpl in *; try done.
  destruct (IH s' Hwf') as [Hwf'' Hlen']. split; [done | congruence].
Qed.

Lemma keeps_well_formed {A} (c : M State A) (s : State) :
  keeps_volumes c -> well_formed s -> well_formed (snd (c s)).
Proof. intros Hc. unfold well_formed. destruct (Hc s) as [-> ->]. done. Qed.

(** The stored list is never resized: [read_volumes] keeps its length. *)
Lemma read_volumes_length (frame : io (list byte)) (sc : scans) (s : State) :
  well_formed s ->
  well_formed (snd (read_volumes frame sc s)) /\
  length (stored (snd (read_volumes frame sc s))) = length (stored s).
Proof.
  intros Hwf. unfold read_volumes, try_except, bind, gets, modify.
  destruct frame as [bs |].
  - pose proof (store_volumes_length (read_result (_channels (self s)) bs)
                  (seq 0 (Z.to_nat (_channels (self s)))) (log (ERead (_channels (self s))) s) Hwf)
      as [Hwf' Hlen].
    destruct (store_volumes _ _ _) as [[[] | e |] s'] eqn:Hr; simpl in *; try done.
    destruct (decide (e = SerialException)); [| done].
    split; [now apply keeps_well_formed; [apply keeps_connect |] |].
    rewrite keeps_stored by apply keeps_connect. exact Hlen.
  - simpl. split; [now apply keeps_well_formed; [apply keeps_connect |] |].
    now rewrite keeps_stored by apply keeps_connect.
Qed.

Lemma connect_length (sc : scans) (s : State) :
  length (stored (snd (_connect_mixer sc s))) = length (stored s).
Proof. now rewrite keeps_stored by apply keeps_connect. Qed.

(** [get_volumes] returns a new list object with the stored floats and
    leaves the stored list as it is. *)
Lemma get_volumes_copy (s : State) :
  well_formed s ->
  exists l s',
    get_volumes s = (Returned l, s') /\
    l = length (heap s) /\ l <> _volumes (self s) /\
    Heap.get (heap s') l = stored s /\ stored s' = stored s /\
    self s' = self s /\ well_formed s'.
Proof.
  intros Hwf. unfold well_formed in Hwf.
  exists (length (heap s)), (set_heap (heap s ++ [stored s]) s).
  repeat split; try done.
  - lia.
  - unfold Heap.get. simpl. now rewrite lookup_app_r, Nat.sub_diag.
  - unfold stored, Heap.get. simpl. now rewrite lookup_app_l.
  - unfold well_formed. simpl. rewrite length_app. lia.
Qed.

(** *** Discovery and handshake *)

Lemma try_port_handshake (i : ListPortInfo) (a : Answers) (bs b : list byte) (s : State) :
  is_arduino i = inr true ->
  on_open a = Ok tt ->
  on_read_all a = Ok bs ->
  take 14 bs = magic ->
  on_write a = Ok tt ->
  on_read1 a = Ok b ->
  try_port (i, a) s = (Returned true, connected i (int_from_bytes_big (read_result 1 b)) s).
Proof.
  intros Hard Hopen Hall Hmagic Hwrite Hone. unfold try_port.
  rewrite Hard, Hopen, Hall, Hwrite, Hone.
  rewrite bool_decide_eq_true_2 by exact Hmagic. reflexivity.
Qed.

Lemma try_port_conforming (i : ListPortInfo) (a : Answers) (n : byte) (s : State) :
  conforming i a n ->
  try_port (i, a) s = (Returned true, connected i (Z.of_N (Byte.to_N n)) s).
Proof.
  intros (Hard & Hopen & (bs & Hall & Hmagic) & Hwrite & Hone).
  now rewrite (try_port_handshake i a bs [n] s).
Qed.

Lemma try_ports_cons (c : candidate) (rest : list candidate) (s : State) :
  try_ports (c :: rest) s
  = bind (try_port c) (fun found => if found then ret true else try_ports rest) s.
Proof. reflexivity. Qed.

Lemma scan_loop_cons (cs : list candidate) (rest : scans) (s : State) :
  scan_loop (cs :: rest) s
  = bind (try_ports cs) (fun found => if found then ret tt else scan_loop rest) s.
Proof. reflexivity. Qed.

Lemma try_port_ignored (c : candidate) (s : State) :
  ignored c -> try_port c s = (Returned false, s).
Proof.
  destruct c as [i a]. unfold ignored, try_port. simpl. now intros ->.
Qed.

Lemma try_ports_ignored (cs : list candidate) (s : State) :
  Forall ignored cs -> try_ports cs s = (Returned false, s).
Proof.
  induction 1 as [| c cs Hc _ IH]; [done |].
  rewrite try_ports_cons. unfold bind. now rewrite (try_port_ignored c s Hc).
Qed.

Lemma try_ports_finds_mixer (before after : list candidate)
    (i : ListPortInfo) (a : Answers) (n : byte) (s : State) :
  Forall ignored before ->
  conforming i a n ->
  try_ports (before ++ (i, a) :: after) s
  = (Returned true, connected i (Z.of_N (Byte.to_N n)) s).
Proof.
  intros Hbefore Hconf. induction Hbefore as [| c before Hc _ IH].
  - rewrite app_nil_l, try_ports_cons. unfold bind.
    now rewrite (try_port_conforming i a n s Hconf).
  - rewrite <- app_comm_cons, try_ports_cons. unfold bind.
    now rewrite (try_port_ignored c s Hc).
Qed.

(** Rounds of polling in which no Arduino is listed are waited out; the
    first round in which a conforming mixer is the first Arduino listed ends
    the search. *)
Lemma scan_loop_finds_mixer (idle : scans) (before after : list candidate)
    (i : ListPortInfo) (a : Answers) (n : byte) (later : scans) (s : State) :
  Forall (Forall ignored) idle ->
  Forall ignored before ->
  conforming i a n ->
  scan_loop (idle ++ (before ++ (i, a) :: after) :: later) s
  = (Returned tt, connected i (Z.of_N (Byte.to_N n)) s).
Proof.
  intros Hidle Hbefore Hconf.
  induction Hidle as [| cs idle Hcs _ IH].
  - rewrite app_nil_l, scan_loop_cons. unfold bind.
    now rewrite (try_ports_finds_mixer before after i a n s Hbefore Hconf).
  - rewrite <- app_comm_cons, scan_loop_cons. unfold bind.
    now rewrite (try_ports_ignored cs s Hcs).
Qed.

(** *** Decoding *)

(** Every byte from 0 to 100 decodes to a float between 0.0 and 1.0. *)
Lemma decode_in_unit_range (b : byte) :
  (Byte.to_N b <= 100)%N ->
  (0 <=? decode b)%float = true /\ (decode b <=? 1)%float = true.
Proof.
  intros Hb.
  destruct b; vm_compute in Hb; try (exfalso; apply Hb; reflexivity);
    split; vm_compute; reflexivity.
Qed.

Lemma overwrite_next {A} (new old : list A) (k : nat) (x : A) :
  new !! k = Some x ->
  (k < length old)%nat ->
  <[k := x]> (take k new ++ drop k old) = take (S k) new ++ drop (S k) old.
Proof.
  intros Hnew Hold.
  assert (length (take k new) = k) as Hlen.
  { rewrite length_take. apply lookup_lt_Some in Hnew. lia. }
  destruct (lookup_lt_is_Some_2 old k Hold) as [y Hy].
  rewrite (drop_S old y k Hy), (take_S_r new k x Hnew).
  rewrite insert_app_r_alt by lia. rewrite Hlen, Nat.sub_diag. simpl.
  now rewrite <- app_assoc.
Qed.

(** The decoding loop from index [k] on: with enough bytes and enough room
    in the stored list, it returns and has overwritten entries [k..k+m). *)
Lemma store_volumes_from (values : list byte) (old : list float) (m k : nat) (s : State) :
  well_formed s ->
  stored s = take k (decode <$> values) ++ drop k old ->
  (k + m <= length values)%nat ->
  (k + m <= length old)%nat ->
  exists s',
    store_volumes values (seq k m) s = (Returned tt, s') /\
    stored s' = take (k + m) (decode <$> values) ++ drop (k + m) old /\
    well_formed s' /\ self s' = self s /\ trace s' = trace s /\
    length (heap s') = length (heap s) /\
    forall l, l <> _volumes (self s) -> heap s' !! l = heap s !! l.
Proof.
  revert k s. induction m as [| m IH]; intros k s Hwf Hst Hv Ho.
  - exists s. rewrite Nat.add_0_r. now repeat split.
  - destruct (lookup_lt_is_Some_2 values k) as [b Hb]; [lia |].
    assert (length (stored s) = length old) as Hlen.
    { rewrite Hst, length_app, length_take, length_drop, length_fmap. lia. }
    assert (store_volume values k s
            = (Returned tt, set_heap (Heap.set (heap s) (_volumes (self s))
                                        (<[k := decode b]> (stored s))) s)) as Hstep.
    { unfold store_volume, setitem. rewrite Hb.
      now rewrite decide_True by lia. }
    destruct (store_volume_returned _ _ _ _ Hwf Hstep) as (b' & Hb' & _ & _ & Hst' & Hwf').
    assert (b' = b) as -> by congruence.
    destruct (IH (S k) _ Hwf') as (s' & Hrun & Hfin & Hwf'' & Hself & Htrace & Hheap & Hother).
    + rewrite Hst', Hst. apply overwrite_next; [| lia].
      now rewrite list_lookup_fmap, Hb.
    + lia.
    + lia.
    + exists s'. simpl. unfold bind. rewrite Hstep.
      replace (k + S m)%nat with (S k + m)%nat by lia.
      repeat split; try done.
      * rewrite Hheap. unfold Heap.set. simpl. now rewrite length_insert.
      * intros l Hl. rewrite Hother by exact Hl. unfold Heap.set. simpl.
        now rewrite list_lookup_insert_ne by congruence.
Qed.

(** A frame of [_channels] bytes that fits the stored list is decoded
    into its first [_channels] entries. *)
Lemma read_volumes_stores_frame (bs : list byte) (sc : scans) (s : State) :
  well_formed s ->
  length bs = Z.to_nat (_channels (self s)) ->
  (length bs <= length (stored s))%nat ->
  exists s',
    read_volumes (Ok bs) sc s = (Returned tt, s') /\
    stored s' = (decode <$> bs) ++ drop (length bs) (stored s) /\
    well_formed s' /\ self s' = self s.
Proof.
  intros Hwf Hlen Hroom.
  destruct (store_volumes_from bs (stored s) (length bs) 0
              (log (ERead (_channels (self s))) s))
    as (s' & Hrun & Hst & Hwf' & Hself & _); try done.
  exists s'. unfold read_volumes, try_except, bind, gets, modify.
  unfold read_result. rewrite <- Hlen, firstn_all. rewrite Hrun.
  repeat split; try done.
  rewrite Hst. simpl. f_equal. rewrite <- (length_fmap decode bs). apply firstn_all.
Qed.

Lemma hardware_conforming (n : byte) : conforming arduino (hardware n) n.
Proof. unfold conforming. repeat split. exists magic. now split. Qed.

(** ** Claims about the mixer session *)

(** C7. A candidate whose preamble read returns fewer than 14 bytes (none
    at all included) is a non-match: the loop body does not raise, the
    candidate is closed, and the scan goes on with the devices listed after
    it and then with the next rounds of polling. *)
Theorem short_preamble_is_no_match (i : ListPortInfo) (a : Answers) (bs : list byte)
    (rest : list candidate) (sc : scans) (s : State) :
  is_arduino i = inr true ->
  on_open a = Ok tt ->
  on_read_all a = Ok bs ->
  (length bs < 14)%nat ->
  let s' := close_port (probed i s) in
  try_port (i, a) s = (Returned false, s') /\
  is_open (_port (self s')) = false /\
  last (trace s') = Some (EClose (Some (device i))) /\
  _channels (self s') = _channels (self s) /\
  try_ports ((i, a) :: rest) s = try_ports rest s' /\
  scan_loop (((i, a) :: rest) :: sc) s
  = bind (try_ports rest) (fun found => if found then ret tt else scan_loop sc) s'.
Proof.
  intros Hard Hopen Hall Hshort s'.
  assert (Hbody : try_port (i, a) s = (Returned false, s')).
  { unfold try_port. rewrite Hard, Hopen, Hall.
    rewrite bool_decide_eq_false_2; [reflexivity |].
    intros Heq. apply (f_equal length) in Heq. rewrite length_take in Heq.
    change (length magic) with 14%nat in Heq. lia. }
  assert (Hrest : try_ports ((i, a) :: rest) s = try_ports rest s').
  { rewrite try_ports_cons. unfold bind. now rewrite Hbody. }
  repeat split; try done.
  - subst s'. unfold close_port, log. cbn [trace]. apply last_snoc.
  - rewrite scan_loop_cons. unfold bind at 1. rewrite Hrest. reflexivity.
Qed.

Lemma short_preamble_is_no_match_witness :
  try_ports [(arduino, slow_board []); (second_arduino, hardware x02)] init_state
  = try_ports [(second_arduino, hardware x02)] (close_port (probed arduino init_state)) /\
  try_port (arduino, slow_board (list_byte_of_string "Hardware")) init_state
  = (Returned false, close_port (probed arduino init_state)).
Proof.
  split.
  - apply (short_preamble_is_no_match arduino (slow_board [])
             [] [(second_arduino, hardware x02)] [] init_state);
      [reflexivity | reflexivity | reflexivity | simpl; lia].
  - apply (short_preamble_is_no_match arduino (slow_board (list_byte_of_string "Hardware"))
             (list_byte_of_string "Hardware") [] [] init_state);
      [reflexivity | reflexivity | reflexivity | vm_compute; lia].
Defined.

(** The loop over the listed devices goes on after a device that is passed
    over, and the polling loop after a round of such devices. *)
Lemma try_ports_passed_over (pre : list candidate) (s : State) :
  Forall passed_over pre ->
  exists s1, forall rest, try_ports (pre ++ rest) s = try_ports rest s1.
Proof.
  intros Hpre. revert s. induction Hpre as [| c pre Hc _ IH]; intros s.
  - now exists s.
  - specialize (Hc s). destruct (try_port c s) as [o s0] eqn:Hone.
    simpl in Hc. subst o. destruct (IH s0) as [s1 Hs1]. exists s1. intros rest.
    rewrite <- app_comm_cons, try_ports_cons. unfold bind. rewrite Hone. apply Hs1.
Qed.

Lemma scan_loop_passed_over (idle : scans) (s : State) :
  Forall (Forall passed_over) idle ->
  exists s1, forall later, scan_loop (idle ++ later) s = scan_loop later s1.
Proof.
  intros Hidle. revert s. induction Hidle as [| cs idle Hcs _ IH]; intros s.
  - now exists s.
  - destruct (try_ports_passed_over cs s Hcs) as [s0 Hs0].
    destruct (IH s0) as [s1 Hs1]. exists s1. intros later.
    rewrite <- app_comm_cons, scan_loop_cons. unfold bind.
    specialize (Hs0 []). rewrite app_nil_r in Hs0. rewrite Hs0. simpl. apply Hs1.
Qed.

(** The scan reaches the candidate listed after devices that are passed
    over, in the state [s1] that they leave, and goes by what the loop body
    does there. *)
Lemma scan_loop_reaches (idle : scans) (pre : list candidate) (s : State) :
  Forall (Forall passed_over) idle ->
  Forall passed_over pre ->
  exists s1, forall c post later,
    scan_loop (idle ++ (pre ++ c :: post) :: later) s
    = bind (try_port c)
        (fun found => if found then ret tt
                      else bind (try_ports post)
                             (fun found' => if found' then ret tt else scan_loop later)) s1.
Proof.
  intros Hidle Hpre.
  destruct (scan_loop_passed_over idle s Hidle) as [s0 Hs0].
  destruct (try_ports_passed_over pre s0 Hpre) as [s1 Hs1].
  exists s1. intros c post later.
  rewrite Hs0, scan_loop_cons. unfold bind at 1. rewrite Hs1, try_ports_cons.
  unfold bind. destruct (try_port c s1) as [[[] | e |] s2]; reflexivity.
Qed.

Lemma ignored_passed_over (c : candidate) : ignored c -> passed_over c.
Proof. intros Hc s. now rewrite (try_port_ignored c s Hc). Qed.

Lemma short_preamble_passed_over (i : ListPortInfo) (a : Answers) (bs : list byte) :
  is_arduino i = inr true ->
  on_open a = Ok tt ->
  on_read_all a = Ok bs ->
  take 14 bs <> magic ->
  passed_over (i, a).
Proof.
  intros Hard Hopen Hall Hne s. unfold try_port. rewrite Hard, Hopen, Hall.
  now rewrite bool_decide_eq_false_2.
Qed.




(** C4: the code at the failing inputs. The stored list is created with
    two entries and no statement resizes it: with a mixer that reports three
    channels [_channels] is 3 and the list still has two entries, so the
    first read raises IndexError inside [__init__]; with a mixer that
    reports one channel the list has two entries as well; and a reconnect
    that changes the count from 2 to 1 leaves the list at two entries. *)
Theorem stored_list_is_never_resized :
  let r3 := Mixer_init [[(arduino, hardware x03)]] (Ok [x0a; x14; x1e]) [] in
  let r1 := Mixer_init [[(arduino, hardware x01)]] (Ok [x0a]) [] in
  let r21 := read_volumes Fail [[(arduino, hardware x01)]] two_channel_session in
  (_channels (self (snd r3)) = 3 /\ length (stored (snd r3)) = 2%nat /\
   fst r3 = Raised IndexError) /\
  (_channels (self (snd r1)) = 1 /\ length (stored (snd r1)) = 2%nat /\
   fst r1 = Returned tt) /\
  (_channels (self two_channel_session) = 2 /\ fst r21 = Returned tt /\
   _channels (self (snd r21)) = 1 /\ length (stored (snd r21)) = 2%nat).
Proof. vm_compute. repeat split. Qed.

(** C2: the code at the failing input. With a mixer that reports three
    channels and the frame [10, 20, 30], [read_volumes] stores the first
    two volumes and raises IndexError at the third, which is never stored. *)
Theorem third_channel_is_not_stored :
  let s3 := snd (_connect_mixer [[(arduino, hardware x03)]] init_state) in
  let r := read_volumes (Ok [x0a; x14; x1e]) [] s3 in
  _channels (self s3) = 3 /\
  fst r = Raised IndexError /\
  stored (snd r) = [0.1%float; 0.2%float] /\
  stored (snd r) !! 2%nat = None.
Proof. vm_compute. repeat split. Qed.

(** The part of C2 that the code keeps: scenario 1 of the spec. *)
Lemma frame_50_80_gives_half_and_four_fifths :
  let s := snd (Mixer_init [[(arduino, hardware x02)]] (Ok [x32; x50]) []) in
  exists l s',
    get_volumes s = (Returned l, s') /\
    Heap.get (heap s') l = [0.5%float; 0.8%float].
Proof. eexists _, _. vm_compute. split; reflexivity. Qed.

(** C6: the code at the failing input. The frame read raises
    [SerialException]; the handler calls [_connect_mixer]; the Arduino it
    finds cannot be opened, and that second [SerialException] leaves
    [read_volumes] and ends [_mixer_listener]. A listed USB device without a
    manufacturer string ends them with TypeError in the same way. *)
Theorem reconnect_failure_escapes :
  let nameless :=
    {| device := "/dev/ttyUSB0"; subsystem := Some "usb"%string; manufacturer := None |} in
  fst (read_volumes Fail [[(arduino, busy_port)]] two_channel_session)
    = Raised SerialException /\
  fst (_mixer_listener [(Fail, [[(arduino, busy_port)]]); (Ok [x32; x50], [])]
         two_channel_session)
    = Raised SerialException /\
  fst (read_volumes Fail [[(nameless, hardware x02)]] two_channel_session)
    = Raised TypeError.
Proof. vm_compute. repeat split. Qed.

(** C10: the code at the failing input. The frame read raises
    [SerialException] and the Arduino that the reconnect finds cannot be
    opened: the stored volumes are as before the call, [0.1, 0.2], and no
    frame was read, but the call does not return: the second
    [SerialException] leaves it. *)
Theorem failed_reconnect_does_not_return :
  let r := read_volumes Fail [[(arduino, busy_port)]] two_channel_session in
  stored two_channel_session = [0.1%float; 0.2%float] /\
  stored (snd r) = [0.1%float; 0.2%float] /\
  fst r = Raised SerialException /\
  fst r <> Returned tt /\
  trace (snd r) = trace two_channel_session ++ [ERead 2; EClose (Some (device arduino))].
Proof. cbv zeta. repeat split; try (vm_compute; reflexivity). discriminate. Qed.

(** X21. The part of C10 that the code keeps. When the frame read of
    [read_volumes] raises a transport error, the call is the failed read
    followed by [_connect_mixer] and nothing else: the heap, and so the
    stored volume list, is as before the call whatever the reconnect does;
    whenever the reconnect returns, the call returns in the state the
    reconnect left, with the volumes from before the error; and it does
    return once a conforming mixer is listed after any number of rounds and
    of listed devices that are passed over, rejected Arduinos included. *)
Theorem transport_error_leaves_volumes (sc : scans) (s : State) :
  let r := read_volumes Fail sc s in
  r = _connect_mixer sc (log (ERead (_channels (self s))) s) /\
  heap (snd r) = heap s /\
  stored (snd r) = stored s /\
  (forall s', _connect_mixer sc (log (ERead (_channels (self s))) s) = (Returned tt, s') ->
              r = (Returned tt, s') /\ stored s' = stored s) /\
  (forall idle before after i a n later,
      sc = idle ++ (before ++ (i, a) :: after) :: later ->
      Forall (Forall passed_over) idle -> Forall passed_over before -> conforming i a n ->
      exists s',
        r = (Returned tt, s') /\
        stored s' = stored s /\
        _channels (self s') = Z.of_N (Byte.to_N n) /\
        _port (self s') = {| portstr := Some (device i); is_open := true |}).
Proof.
  intros r.
  assert (Hr : r = _connect_mixer sc (log (ERead (_channels (self s))) s)) by reflexivity.
  assert (Hheap : heap (snd r) = heap s).
  { rewrite Hr. now destruct (keeps_connect sc (log (ERead (_channels (self s))) s)). }
  assert (Hstored : stored (snd r) = stored s).
  { rewrite Hr. now rewrite keeps_stored by apply keeps_connect. }
  split; [exact Hr |]. split; [exact Hheap |]. split; [exact Hstored |]. split.
  - intros s' Hs'. rewrite Hr, Hs'. split; [reflexivity |].
    rewrite Hr, Hs' in Hstored. exact Hstored.
  - intros idle before after i a n later -> Hidle Hbefore Hconf.
    destruct (scan_loop_reaches idle before
                (close_port (log (ERead (_channels (self s))) s)) Hidle Hbefore)
      as [s1 Hs1].
    assert (Hs' : r = (Returned tt, connected i (Z.of_N (Byte.to_N n)) s1)).
    { rewrite Hr. unfold _connect_mixer, bind at 1, modify. rewrite Hs1.
      unfold bind. now rewrite (try_port_conforming i a n s1 Hconf). }
    eexists. split; [exact Hs' |].
    rewrite Hs' in Hstored. now repeat split.
Qed.

Lemma transport_error_leaves_volumes_witness :
  exists s',
    read_volumes Fail [[]; [(arduino, slow_board []); (second_arduino, hardware x02)]]
      two_channel_session = (Returned tt, s') /\
    stored s' = [0.1%float; 0.2%float] /\
    _port (self s') = {| portstr := Some (device second_arduino); is_open := true |}.
Proof.
  destruct (proj2 (proj2 (proj2 (proj2
             (transport_error_leaves_volumes
                [[]; [(arduino, slow_board []); (second_arduino, hardware x02)]]
                two_channel_session))))
             [[]] [(arduino, slow_board [])] [] second_arduino (hardware x02) x02 []
             eq_refl)
    as (s' & Hr & Hst & _ & Hp).
  - repeat constructor.
  - constructor; [| constructor]. intros s. reflexivity.
  - apply hardware_conforming.
  - exists s'. split; [exact Hr |]. split; [| exact Hp]. rewrite Hst. reflexivity.
Defined.

(** ** The mixer thread and the main thread *)

Lemma get_volumes_inv (s s' : State) (l : Heap.loc) :
  get_volumes s = (Returned l, s') ->
  l = length (heap s) /\ s' = set_heap (heap s ++ [stored s]) s.
Proof. unfold get_volumes, Heap.alloc. now intros [= <- <-]. Qed.


Lemma mixed_all (bs : list byte) (old : list float) :
  mixed (length bs) bs old = (decode <$> bs) ++ drop (length bs) old.
Proof.
  unfold mixed. f_equal. rewrite <- (length_fmap decode bs). apply firstn_all.
Qed.










(** The loop of [read_volumes], run without interruption, is a sequence of
    steps of the mixer thread. *)
Lemma store_volumes_steps (bs vs : list byte) (idx : list nat) (s s' : State)
    (r : reader) (ls : list Heap.loc) :
  store_volumes vs idx s = (Returned tt, s') ->
  rtc (step bs) {| st := s; writer := Some (vs, idx); copier := r; seen := ls |}
                {| st := s'; writer := Some (vs, []); copier := r; seen := ls |}.
Proof.
  revert s. induction idx as [| i idx IH]; intros s Hrun.
  - injection Hrun as <-. apply rtc_refl.
  - simpl in Hrun. unfold bind in Hrun.
    destruct (store_volume vs i s) as [[[] | e |] s1] eqn:Hone; try discriminate.
    eapply rtc_l; [apply step_store; exact Hone | now apply IH].
Qed.

(** The loop of [copy.deepcopy], run without interruption from index
    [length done], appends the rest of the stored list. *)
Lemma copy_elements_steps (bs : list byte) (todo done : list float) (s : State)
    (w : option (list byte * list nat)) (y : Heap.loc) (ls : list Heap.loc) :
  y <> _volumes (self s) ->
  stored s = done ++ todo ->
  heap s !! y = Some done ->
  rtc (step bs)
    {| st := s; writer := w; copier := Copying y (length done); seen := ls |}
    {| st := set_heap (<[y := stored s]> (heap s)) s; writer := w;
       copier := Idle; seen := y :: ls |}.
Proof.
  revert done s. induction todo as [| v todo IH]; intros done s Hy Hst Hget.
  - rewrite app_nil_r in Hst.
    replace (set_heap (<[y := stored s]> (heap s)) s) with s.
    + apply rtc_once. apply step_copy_end. rewrite Hst. now apply lookup_ge_None.
    + rewrite Hst, list_insert_id by exact Hget. now destruct s.
  - eapply rtc_l.
    + apply (step_copy_element bs s w y (length done) v ls).
      rewrite Hst, lookup_app_r by lia. now rewrite Nat.sub_diag.
    + set (s1 := set_heap (Heap.set (heap s) y (Heap.get (heap s) y ++ [v])) s).
      assert (Hst1 : stored s1 = stored s).
      { unfold s1, stored, Heap.get, Heap.set. simpl.
        now rewrite list_lookup_insert_ne by congruence. }
      assert (Hget1 : heap s1 !! y = Some (done ++ [v])).
      { unfold s1, Heap.get, Heap.set. simpl. rewrite Hget. simpl.
        apply list_lookup_insert_eq. now apply lookup_lt_Some in Hget. }
      replace (S (length done)) with (length (done ++ [v]))
        by (rewrite length_app; simpl; lia).
      replace (set_heap (<[y := stored s]> (heap s)) s)
        with (set_heap (<[y := stored s1]> (heap s1)) s1).
      * apply IH; [exact Hy | | exact Hget1].
        rewrite Hst1, Hst, <- app_assoc. reflexivity.
      * rewrite Hst1. unfold s1, Heap.set, set_heap. simpl.
        now rewrite list_insert_insert_eq.
Qed.

(** [get_volumes], run without interruption, is a sequence of steps of the
    main thread, and the list it returns is the one those steps build. *)
Lemma get_volumes_steps (bs : list byte) (s s' : State) (l : Heap.loc)
    (w : option (list byte * list nat)) (ls : list Heap.loc) :
  well_formed s ->
  get_volumes s = (Returned l, s') ->
  rtc (step bs) {| st := s; writer := w; copier := Idle; seen := ls |}
                {| st := s'; writer := w; copier := Idle; seen := l :: ls |}.
Proof.
  intros Hwf Hcopy. apply get_volumes_inv in Hcopy as [-> ->].
  eapply rtc_l; [apply step_copy_begin |].
  unfold Heap.alloc. cbn [fst snd].
  set (s1 := set_heap (heap s ++ [[]]) s).
  assert (Hst1 : stored s1 = stored s).
  { unfold s1, stored, Heap.get. simpl. unfold well_formed in Hwf.
    now rewrite lookup_app_l. }
  replace (set_heap (heap s ++ [stored s]) s)
    with (set_heap (<[length (heap s) := stored s1]> (heap s1)) s1).
  - apply (copy_elements_steps bs (stored s1) [] s1 w (length (heap s)) ls).
    + unfold s1. simpl. unfold well_formed in Hwf. lia.
    + reflexivity.
    + unfold s1. simpl. rewrite lookup_app_r by lia. now rewrite Nat.sub_diag.
  - rewrite Hst1. unfold s1, set_heap. simpl. f_equal.
    rewrite insert_app_r_alt by lia. now rewrite Nat.sub_diag.
Qed.




(** Nor is a returned list always "new up to some channel, old after it":
    a copy that has taken channel 0 before the frame [50, 80] is stored and
    takes channel 1 after it returns [0.1, 0.8]. *)
Lemma crossed_snapshot :
  exists c l,
    rtc (step [x32; x50]) (in_flight two_channel_session) c /\
    seen c = [l] /\
    stored two_channel_session = [0.1%float; 0.2%float] /\
    (decode <$> [x32; x50]) = [0.5%float; 0.8%float] /\
    Heap.get (heap (st c)) l = [0.1%float; 0.8%float].
Proof.
  pose (s0 := two_channel_session).
  pose (s1 := log (ERead 2) two_channel_session).
  pose (w := Some ([x32; x50], [0; 1]%nat)).
  exists {| st := set_heap [[0.5%float; 0.8%float]; [0.1%float; 0.8%float]] s1;
            writer := Some ([x32; x50], []); copier := Idle; seen := [1%nat] |}, 1%nat.
  split; [| repeat split].
  apply (rtc_l _ _ {| st := set_heap [[0.1%float; 0.2%float]; []] s0;
                      writer := None; copier := Copying 1 0; seen := [] |}).
  { exact (step_copy_begin [x32; x50] s0 None []). }
  apply (rtc_l _ _ {| st := set_heap [[0.1%float; 0.2%float]; [0.1%float]] s0;
                      writer := None; copier := Copying 1 1; seen := [] |}).
  { exact (step_copy_element [x32; x50] (set_heap [[0.1%float; 0.2%float]; []] s0)
             None 1 0 0.1%float [] eq_refl). }
  apply (rtc_l _ _ {| st := set_heap [[0.1%float; 0.2%float]; [0.1%float]] s1;
                      writer := Some ([x32; x50], [0; 1]%nat);
                      copier := Copying 1 1; seen := [] |}).
  { exact (step_read [x32; x50] (set_heap [[0.1%float; 0.2%float]; [0.1%float]] s0)
             (Copying 1 1) []). }
  apply (rtc_l _ _ {| st := set_heap [[0.5%float; 0.2%float]; [0.1%float]] s1;
                      writer := Some ([x32; x50], [1%nat]);
                      copier := Copying 1 1; seen := [] |}).
  { exact (step_store [x32; x50] [x32; x50] 0 [1%nat]
             (set_heap [[0.1%float; 0.2%float]; [0.1%float]] s1)
             (set_heap [[0.5%float; 0.2%float]; [0.1%float]] s1) (Copying 1 1) [] eq_refl). }
  apply (rtc_l _ _ {| st := set_heap [[0.5%float; 0.8%float]; [0.1%float]] s1;
                      writer := Some ([x32; x50], []);
                      copier := Copying 1 1; seen := [] |}).
  { exact (step_store [x32; x50] [x32; x50] 1 []
             (set_heap [[0.5%float; 0.2%float]; [0.1%float]] s1)
             (set_heap [[0.5%float; 0.8%float]; [0.1%float]] s1) (Copying 1 1) [] eq_refl). }
  apply (rtc_l _ _ {| st := set_heap [[0.5%float; 0.8%float]; [0.1%float; 0.8%float]] s1;
                      writer := Some ([x32; x50], []);
                      copier := Copying 1 2; seen := [] |}).
  { exact (step_copy_element [x32; x50]
             (set_heap [[0.5%float; 0.8%float]; [0.1%float]] s1)
             (Some ([x32; x50], [])) 1 1 0.8%float [] eq_refl). }
  apply rtc_once.
  exact (step_copy_end [x32; x50]
           (set_heap [[0.5%float; 0.8%float]; [0.1%float; 0.8%float]] s1)
           (Some ([x32; x50], [])) 1 2 [] eq_refl).
Qed.


(** * Further properties of the mixer session *)

(** X1. Decoding never clamps: every byte decodes to a volume that is at
    least 0.0, and the volume is at most 1.0 exactly when the byte is at
    most 100. *)
Theorem decode_at_most_one_iff (b : byte) :
  (0 <=? decode b)%float = true /\
  ((decode b <=? 1)%float = true <-> (Byte.to_N b <= 100)%N).
Proof.
  destruct b; (split; [reflexivity |]); split; intros H;
    first [ reflexivity
          | (vm_compute; intros H'; discriminate H')
          | (vm_compute in H; discriminate H)
          | (exfalso; apply H; reflexivity) ].
Qed.

Lemma store_volumes_app (vs : list byte) (idx1 idx2 : list nat) (s : State) :
  store_volumes vs (idx1 ++ idx2) s
  = bind (store_volumes vs idx1) (fun _ => store_volumes vs idx2) s.
Proof.
  revert s. induction idx1 as [| i idx1 IH]; intros s; [done |].
  simpl. unfold bind.
  destruct (store_volume vs i s) as [[[] | e |] s1]; try done.
Qed.

(** The round of the decoding loop at an index that the frame or the stored
    list does not have raises IndexError and changes nothing. *)
Lemma store_volume_out_of_range (vs : list byte) (i : nat) (s : State) :
  (length vs <= i)%nat \/ (length (stored s) <= i)%nat ->
  store_volume vs i s = (Raised IndexError, s).
Proof.
  intros Hout. unfold store_volume, setitem.
  destruct (vs !! i) as [b |] eqn:Hb; [| reflexivity].
  destruct (decide (i < length (stored s))%nat) as [Hlt |]; [| reflexivity].
  apply lookup_lt_Some in Hb. lia.
Qed.

(** The outcome of [read_volumes] on a frame that was read. *)
Lemma read_volumes_frame_result (bs : list byte) (sc : scans) (s : State) :
  well_formed s ->
  let n := _channels (self s) in
  let vs := read_result n bs in
  let m := Nat.min (length vs) (length (stored s)) in
  let r := read_volumes (Ok bs) sc s in
  fst r = (if decide (m = Z.to_nat n) then Returned tt else Raised IndexError) /\
  stored (snd r) = take m (decode <$> vs) ++ drop m (stored s) /\
  self (snd r) = self s /\
  trace (snd r) = trace s ++ [ERead n].
Proof.
  intros Hwf n vs m r.
  assert (Hvs : (length vs <= Z.to_nat n)%nat).
  { subst vs. unfold read_result. rewrite length_take. lia. }
  destruct (store_volumes_from vs (stored s) m 0 (log (ERead n) s))
    as (s1 & Hrun & Hst & Hwf1 & Hself & Htrace & _); try done; try (subst m; lia).
  assert (Hlen1 : length (stored s1) = length (stored s)).
  { pose proof (store_volumes_length vs (seq 0 m) (log (ERead n) s) Hwf) as [_ Hl].
    rewrite Hrun in Hl. exact Hl. }
  assert (Hr : r = if decide (m = Z.to_nat n) then (Returned tt, s1)
                   else (Raised IndexError, s1)).
  { subst r. unfold read_volumes, try_except, bind at 1, gets.
    unfold bind at 1, modify. fold n. fold vs.
    replace (seq 0 (Z.to_nat n)) with (seq 0 m ++ seq m (Z.to_nat n - m))
      by (rewrite <- seq_app; f_equal; lia).
    rewrite store_volumes_app. unfold bind at 1. rewrite Hrun.
    destruct (decide (m = Z.to_nat n)) as [-> | Hne].
    - now rewrite Nat.sub_diag.
    - replace (Z.to_nat n - m)%nat with (S (Z.to_nat n - S m)) by lia.
      simpl. unfold bind at 1.
      rewrite store_volume_out_of_range by (rewrite Hlen1; lia).
      reflexivity. }
  rewrite Hr. destruct (decide (m = Z.to_nat n)); simpl; repeat split; try done.
Qed.

(** X2. What [read_volumes] does with a frame that was read without a
    transport error: with [m] the smaller of the number of bytes read and
    the length of the stored list, the first [m] entries of the stored list
    are overwritten with the decoded bytes and the others are kept; the call
    returns when [m] is the channel count and raises IndexError otherwise.
    Nothing is reconnected, and the mixer's other fields are unchanged. *)
Theorem read_volumes_frame_outcome (bs : list byte) (sc : scans) (s : State) :
  well_formed s ->
  let n := _channels (self s) in
  let vs := read_result n bs in
  let m := Nat.min (length vs) (length (stored s)) in
  let r := read_volumes (Ok bs) sc s in
  fst r = (if decide (m = Z.to_nat n) then Returned tt else Raised IndexError) /\
  stored (snd r) = take m (decode <$> vs) ++ drop m (stored s) /\
  self (snd r) = self s /\
  trace (snd r) = trace s ++ [ERead n].
Proof. exact (read_volumes_frame_result bs sc s). Qed.

Lemma read_volumes_frame_outcome_witness :
  fst (read_volumes (Ok [x32]) [] two_channel_session) = Raised IndexError /\
  stored (snd (read_volumes (Ok [x32]) [] two_channel_session)) = [0.5%float; 0.2%float] /\
  fst (read_volumes (Ok [x32; x50; x64]) [] two_channel_session) = Returned tt /\
  stored (snd (read_volumes (Ok [x32; x50; x64]) [] two_channel_session))
  = [0.5%float; 0.8%float].
Proof.
  assert (Hwf : well_formed two_channel_session) by (unfold well_formed; vm_compute; lia).
  destruct (read_volumes_frame_outcome [x32] [] two_channel_session Hwf) as (H1 & H2 & _).
  destruct (read_volumes_frame_outcome [x32; x50; x64] [] two_channel_session Hwf)
    as (H3 & H4 & _).
  split; [exact H1 |]. split; [exact H2 |]. split; [exact H3 | exact H4].
Defined.

Lemma mixer_listener_length (reads : list (io (list byte) * scans)) (s : State) :
  well_formed s ->
  well_formed (snd (_mixer_listener reads s)) /\
  length (stored (snd (_mixer_listener reads s))) = length (stored s).
Proof.
  revert s. induction reads as [| [frame sc] reads IH]; intros s Hwf; [done |].
  simpl. unfold bind.
  destruct (read_volumes_length frame sc s Hwf) as [Hwf1 Hlen1].
  destruct (read_volumes frame sc s) as [[[] | e |] s1]; simpl in *; try done.
  destruct (IH s1 Hwf1) as [Hwf2 Hlen2]. split; [done | congruence].
Qed.

Lemma Mixer_init_length (sc : scans) (frame : io (list byte)) (sc' : scans) :
  well_formed (snd (Mixer_init sc frame sc')) /\
  length (stored (snd (Mixer_init sc frame sc'))) = 2%nat.
Proof.
  unfold Mixer_init, bind.
  assert (Hwf0 : well_formed init_state) by (unfold well_formed; simpl; lia).
  pose proof (keeps_well_formed (_connect_mixer sc) init_state (keeps_connect sc) Hwf0) as Hwf1.
  pose proof (connect_length sc init_state) as Hlen1.
  destruct (_connect_mixer sc init_state) as [[[] | e |] s1]; simpl in *; try done.
  destruct (read_volumes_length frame sc' s1 Hwf1) as [Hwf2 Hlen2].
  split; [done | congruence].
Qed.

(** X3. The stored volume list always has two entries: after [Mixer()],
    whatever the serial ports answered and whether or not it raised, after
    any number of turns of [_mixer_listener], and in every list that
    [get_volumes] returns; the channel count read from the device never
    changes it. *)
Theorem sample_always_has_two_entries (sc : scans) (frame : io (list byte)) (sc' : scans)
    (reads : list (io (list byte) * scans)) :
  let s0 := snd (Mixer_init sc frame sc') in
  let s1 := snd (_mixer_listener reads s0) in
  length (stored s0) = 2%nat /\
  length (stored s1) = 2%nat /\
  forall l s2, get_volumes s1 = (Returned l, s2) ->
               length (Heap.get (heap s2) l) = 2%nat /\ length (stored s2) = 2%nat.
Proof.
  intros s0 s1.
  destruct (Mixer_init_length sc frame sc') as [Hwf0 Hlen0]. fold s0 in Hwf0, Hlen0.
  destruct (mixer_listener_length reads s0 Hwf0) as [Hwf1 Hlen1]. fold s1 in Hwf1, Hlen1.
  split; [exact Hlen0 |]. split; [congruence |].
  intros l s2 Hcopy.
  destruct (get_volumes_copy s1 Hwf1) as (l' & s2' & Hcopy' & _ & _ & Hget & Hst & _).
  rewrite Hcopy in Hcopy'. injection Hcopy' as <- <-.
  rewrite Hget, Hst. split; congruence.
Qed.

(** *** Which ports are opened, and when *)

Lemma port_after_app (open : bool) (evs1 evs2 : list event) :
  port_after open (evs1 ++ evs2)
  = match port_after open evs1 with
    | Some open' => port_after open' evs2
    | None => None
    end.
Proof.
  revert open. induction evs1 as [| e evs1 IH]; intros open; [done |].
  destruct e; simpl; try apply IH. destruct open; [done | apply IH].
Qed.

Ltac clean_case evs :=
  exists evs; simpl; repeat rewrite <- app_assoc; simpl;
  split; [reflexivity |];
  split; [repeat (apply Forall_cons_2;
                    [intros d' Hd'; try discriminate Hd'; injection Hd' as <-; now split |]);
          constructor |];
  now split.

Lemma try_port_scans_cleanly (c : candidate) :
  scans_cleanly (opens_only (fst c)) falls_through (try_port c).
Proof.
  destruct c as [i a]. intros s Hclosed. unfold try_port.
  destruct (is_arduino i) as [e | []] eqn:Hard;
    [exists []; simpl; rewrite app_nil_r; repeat split; [constructor | now rewrite Hclosed | done] | |
     exists []; simpl; rewrite app_nil_r; repeat split; [constructor | now rewrite Hclosed | done]].
  destruct (on_open a) as [u |];
    [| exists []; simpl; rewrite app_nil_r; repeat split;
       [constructor | now rewrite Hclosed | done]].
  unfold bind, modify, raise, ret.
  destruct (on_read_all a) as [bs |].
  - destruct (bool_decide (take 14 bs = magic)).
    + destruct (on_write a) as [u' |].
      * destruct (on_read1 a) as [b |];
          clean_case [EOpen (device i); EReadAll (device i); EWrite (device i) [x00]; ERead 1].
      * clean_case [EOpen (device i); EReadAll (device i); EWrite (device i) [x00]].
    + clean_case [EOpen (device i); EReadAll (device i); EClose (Some (device i))].
  - clean_case [EOpen (device i); EReadAll (device i)].
Qed.

Lemma try_ports_scans_cleanly (cs : list candidate) :
  scans_cleanly (opens_among cs) falls_through (try_ports cs).
Proof.
  induction cs as [| c cs IH]; intros s Hclosed.
  - exists []. simpl. rewrite app_nil_r. repeat split; [constructor | now rewrite Hclosed | done].
  - rewrite try_ports_cons. unfold bind.
    destruct (try_port_scans_cleanly c s Hclosed) as (evs1 & Htr1 & Hall1 & Hport1 & Hmore1).
    assert (Hall1' : Forall (opens_among (c :: cs)) evs1).
    { eapply Forall_impl; [exact Hall1 |]. intros e He d Hd.
      destruct (He d Hd) as [-> Hard]. destruct c as [i a].
      exists i, a. split; [left | done]. }
    destruct (try_port c s) as [[[] | e |] s1]; simpl in *;
      try (exists evs1; now repeat split).
    specialize (Hmore1 eq_refl).
    destruct (IH s1 Hmore1) as (evs2 & Htr2 & Hall2 & Hport2 & Hmore2).
    exists (evs1 ++ evs2). repeat split.
    + rewrite Htr2, Htr1. now rewrite app_assoc.
    + apply Forall_app. split; [exact Hall1' |].
      eapply Forall_impl; [exact Hall2 |]. intros e He d Hd.
      destruct (He d Hd) as (i & a & Hin & Hrest). exists i, a. split; [now right | done].
    + rewrite port_after_app, Hport1, Hmore1. exact Hport2.
    + exact Hmore2.
Qed.

Lemma scan_loop_scans_cleanly (sc : scans) :
  scans_cleanly (opens_listed sc) ends_here (scan_loop sc).
Proof.
  induction sc as [| cs sc IH]; intros s Hclosed.
  - exists []. simpl. rewrite app_nil_r. repeat split; [constructor | now rewrite Hclosed | done].
  - rewrite scan_loop_cons. unfold bind.
    destruct (try_ports_scans_cleanly cs s Hclosed) as (evs1 & Htr1 & Hall1 & Hport1 & Hmore1).
    assert (Hall1' : Forall (opens_listed (cs :: sc)) evs1).
    { eapply Forall_impl; [exact Hall1 |]. intros e He d Hd.
      destruct (He d Hd) as (i & a & Hin & Hdev & Hard).
      exists cs, i, a. split; [left | done]. }
    destruct (try_ports cs s) as [[[] | e |] s1]; simpl in *;
      try (exists evs1; now repeat split).
    specialize (Hmore1 eq_refl).
    destruct (IH s1 Hmore1) as (evs2 & Htr2 & Hall2 & Hport2 & Hmore2).
    exists (evs1 ++ evs2). repeat split.
    + rewrite Htr2, Htr1. now rewrite app_assoc.
    + apply Forall_app. split; [exact Hall1' |].
      eapply Forall_impl; [exact Hall2 |]. intros e He d Hd.
      destruct (He d Hd) as (cs' & i & a & Hin & Hrest).
      exists cs', i, a. split; [now right | done].
    + rewrite port_after_app, Hport1, Hmore1. exact Hport2.
    + done.
Qed.

(** [_connect_mixer] from any state: it closes the port it holds, and then
    scans cleanly. *)
Lemma connect_trace (sc : scans) (s : State) :
  exists evs,
    trace (snd (_connect_mixer sc s)) = trace s ++ EClose (portstr (_port (self s))) :: evs /\
    Forall (opens_listed sc) evs /\
    port_after false evs = Some (is_open (_port (self (snd (_connect_mixer sc s))))).
Proof.
  unfold _connect_mixer, bind at 1, modify.
  destruct (scan_loop_scans_cleanly sc (close_port s) eq_refl) as (evs & Htr & Hall & Hport & _).
  exists evs. repeat split; [| exact Hall | exact Hport].
  rewrite Htr. simpl. now rewrite <- app_assoc.
Qed.

Lemma connect_one_port (sc : scans) (s : State) :
  one_port s -> one_port (snd (_connect_mixer sc s)).
Proof.
  unfold one_port. intros Hs.
  destruct (connect_trace sc s) as (evs & Htr & _ & Hport).
  rewrite Htr, port_after_app, Hs. exact Hport.
Qed.

Lemma read_volumes_one_port (frame : io (list byte)) (sc : scans) (s : State) :
  well_formed s -> one_port s -> one_port (snd (read_volumes frame sc s)).
Proof.
  intros Hwf Hs. destruct frame as [bs |].
  - destruct (read_volumes_frame_result bs sc s Hwf) as (_ & _ & Hself & Htr).
    unfold one_port in *. rewrite Htr, Hself, port_after_app, Hs. reflexivity.
  - apply (connect_one_port sc (log (ERead (_channels (self s))) s)).
    unfold one_port in *. simpl. rewrite port_after_app, Hs. reflexivity.
Qed.

Lemma mixer_listener_one_port (reads : list (io (list byte) * scans)) (s : State) :
  well_formed s -> one_port s -> one_port (snd (_mixer_listener reads s)).
Proof.
  revert s. induction reads as [| [frame sc] reads IH]; intros s Hwf Hs; [done |].
  simpl. unfold bind.
  pose proof (read_volumes_one_port frame sc s Hwf Hs) as Hs1.
  destruct (read_volumes_length frame sc s Hwf) as [Hwf1 _].
  destruct (read_volumes frame sc s) as [[[] | e |] s1]; simpl in *; try done.
  now apply IH.
Qed.

(** X4. At most one serial port is open at any time: in the transport
    calls made by [Mixer()] and by any number of turns of [_mixer_listener],
    whatever the ports answer, no port is opened while another one is still
    open (a rejected candidate is closed before the next one is opened, and
    a reconnect closes the port it held first), and the open flag of
    [self._port] is the one these calls leave. *)
Theorem never_two_ports_open (sc : scans) (frame : io (list byte)) (sc' : scans)
    (reads : list (io (list byte) * scans)) :
  let s0 := snd (Mixer_init sc frame sc') in
  let s1 := snd (_mixer_listener reads s0) in
  port_after false (trace s0) = Some (is_open (_port (self s0))) /\
  port_after false (trace s1) = Some (is_open (_port (self s1))).
Proof.
  intros s0 s1.
  assert (Hs0 : one_port s0).
  { subst s0. unfold Mixer_init, bind.
    assert (Hwf0 : well_formed init_state) by (unfold well_formed; simpl; lia).
    pose proof (connect_one_port sc init_state eq_refl) as Hc.
    pose proof (keeps_well_formed (_connect_mixer sc) init_state (keeps_connect sc) Hwf0) as Hwf1.
    destruct (_connect_mixer sc init_state) as [[[] | e |] sa]; simpl in *; try done.
    now apply read_volumes_one_port. }
  split; [exact Hs0 |].
  apply mixer_listener_one_port; [| exact Hs0].
  apply Mixer_init_length.
Qed.

(** X5. [_connect_mixer] opens no port other than those of listed devices
    whose subsystem is ['usb'] and whose manufacturer starts with
    ['Arduino']: whatever the outcome, the transport calls it adds are the
    [close] of the port it held followed by calls in which every [open] is
    for such a device. *)
Theorem only_listed_arduinos_are_opened (sc : scans) (s : State) :
  exists evs,
    trace (snd (_connect_mixer sc s)) = trace s ++ EClose (portstr (_port (self s))) :: evs /\
    forall d, EOpen d ∈ evs -> listed_arduino sc d.
Proof.
  destruct (connect_trace sc s) as (evs & Htr & Hall & _).
  exists evs. split; [exact Htr |].
  intros d Hd. rewrite Forall_forall in Hall. now apply (Hall (EOpen d) Hd d).
Qed.

(** *** What [_connect_mixer] has done when it returns *)

Lemma try_port_found (i : ListPortInfo) (a : Answers) (s s' : State) :
  try_port (i, a) s = (Returned true, s') ->
  is_arduino i = inr true /\
  exists bs b,
    on_read_all a = Ok bs /\ take 14 bs = magic /\ on_read1 a = Ok b /\
    s' = connected i (int_from_bytes_big (read_result 1 b)) s.
Proof.
  unfold try_port.
  destruct (is_arduino i) as [e | []]; [discriminate | | discriminate].
  destruct (on_open a) as [u |]; [| discriminate].
  unfold bind, modify, raise, ret.
  destruct (on_read_all a) as [bs |]; [| discriminate].
  case_bool_decide as Hmagic; [| discriminate].
  destruct (on_write a) as [u' |]; [| discriminate].
  destruct (on_read1 a) as [b |]; [| discriminate].
  intros [= <-]. split; [reflexivity |]. now exists bs, b.
Qed.

Lemma try_ports_found (cs : list candidate) (s s' : State) :
  try_ports cs s = (Returned true, s') ->
  exists i a s1, (i, a) ∈ cs /\ try_port (i, a) s1 = (Returned true, s').
Proof.
  revert s. induction cs as [| [i a] cs IH]; intros s; [discriminate |].
  rewrite try_ports_cons. unfold bind.
  destruct (try_port (i, a) s) as [[[] | e |] s1] eqn:Hone; try discriminate.
  - intros [= <-]. exists i, a, s. split; [left | exact Hone].
  - intros Hrest. destruct (IH s1 Hrest) as (i' & a' & s2 & Hin & Hfound).
    exists i', a', s2. split; [now right | exact Hfound].
Qed.

Lemma scan_loop_found (sc : scans) (s s' : State) :
  scan_loop sc s = (Returned tt, s') ->
  exists cs i a s1, cs ∈ sc /\ (i, a) ∈ cs /\ try_port (i, a) s1 = (Returned true, s').
Proof.
  revert s. induction sc as [| cs sc IH]; intros s; [discriminate |].
  rewrite scan_loop_cons. unfold bind.
  destruct (try_ports cs s) as [[[] | e |] s1] eqn:Hone; try discriminate.
  - intros [= <-]. destruct (try_ports_found cs s s1 Hone) as (i & a & s2 & Hin & Hfound).
    exists cs, i, a, s2. split; [left | done].
  - intros Hrest. destruct (IH s1 Hrest) as (cs' & i & a & s2 & Hcs & Hin & Hfound).
    exists cs', i, a, s2. split; [now right | done].
Qed.

(** [int.from_bytes] of what [read(1)] returned fits a byte. *)
Lemma handshake_count_bounds (b : list byte) :
  0 <= int_from_bytes_big (read_result 1 b) < 256.
Proof.
  unfold read_result. destruct b as [| x b].
  - change (int_from_bytes_big (take (Z.to_nat 1) [])) with 0. lia.
  - change (take (Z.to_nat 1) (x :: b)) with [x]. unfold int_from_bytes_big. simpl.
    pose proof (Byte.to_N_bounded x). lia.
Qed.

(** X6. When [_connect_mixer] returns, the mixer is connected: [self._port]
    is the open port of a listed device that passed the Arduino test and
    whose preamble started with the 14 bytes of ['Hardware Mixer'],
    [self._channels] is the number made of the byte that its [read(1)]
    returned, a number from 0 to 255, and the stored volumes are as they
    were. *)
Theorem connect_returns_connected (sc : scans) (s s' : State) :
  _connect_mixer sc s = (Returned tt, s') ->
  exists cs i a bs b,
    cs ∈ sc /\ (i, a) ∈ cs /\ is_arduino i = inr true /\
    on_read_all a = Ok bs /\ take 14 bs = magic /\ on_read1 a = Ok b /\
    _port (self s') = {| portstr := Some (device i); is_open := true |} /\
    _channels (self s') = int_from_bytes_big (read_result 1 b) /\
    0 <= _channels (self s') < 256 /\
    stored s' = stored s.
Proof.
  intros Hret.
  assert (Hst : stored s' = stored s).
  { pose proof (keeps_stored (_connect_mixer sc) s (keeps_connect sc)) as H.
    now rewrite Hret in H. }
  unfold _connect_mixer, bind at 1, modify in Hret.
  destruct (scan_loop_found sc _ s' Hret) as (cs & i & a & s1 & Hcs & Hin & Hfound).
  destruct (try_port_found i a s1 s' Hfound) as (Hard & bs & b & Hall & Hmagic & Hone & ->).
  exists cs, i, a, bs, b. pose proof (handshake_count_bounds b) as Hb.
  repeat split; try done; simpl; lia.
Qed.

Lemma connect_returns_connected_witness :
  let sc := [[]; [(arduino, slow_board []); (second_arduino, hardware x02)]] in
  let s' := snd (_connect_mixer sc init_state) in
  exists cs i a bs b,
    cs ∈ sc /\ (i, a) ∈ cs /\ is_arduino i = inr true /\
    on_read_all a = Ok bs /\ take 14 bs = magic /\ on_read1 a = Ok b /\
    _port (self s') = {| portstr := Some (device i); is_open := true |} /\
    _channels (self s') = int_from_bytes_big (read_result 1 b) /\
    0 <= _channels (self s') < 256 /\
    stored s' = stored init_state.
Proof.
  exact (connect_returns_connected
           [[]; [(arduino, slow_board []); (second_arduino, hardware x02)]]
           init_state _ eq_refl).
Defined.

(** *** The stored list and the copies of it *)

Lemma store_volume_others (vs : list byte) (i : nat) (s : State) (l : Heap.loc) :
  l <> _volumes (self s) ->
  heap (snd (store_volume vs i s)) !! l = heap s !! l /\
  self (snd (store_volume vs i s)) = self s.
Proof.
  intros Hl. unfold store_volume.
  destruct (vs !! i) as [b |]; [| done].
  destruct (setitem (stored s) i (decode b)) as [v |]; [| done].
  simpl. unfold Heap.set. now rewrite list_lookup_insert_ne by congruence.
Qed.

Lemma store_volumes_others (vs : list byte) (idx : list nat) (s : State) (l : Heap.loc) :
  l <> _volumes (self s) ->
  heap (snd (store_volumes vs idx s)) !! l = heap s !! l /\
  self (snd (store_volumes vs idx s)) = self s.
Proof.
  revert s. induction idx as [| i idx IH]; intros s Hl; [done |].
  simpl. unfold bind.
  destruct (store_volume_others vs i s l Hl) as [Hh Hs].
  destruct (store_volume vs i s) as [[[] | e |] s1]; simpl in *; try done.
  destruct (IH s1) as [Hh' Hs']; [now rewrite Hs |]. split; congruence.
Qed.

(** [read_volumes] writes to no list object other than the stored one, and
    [self._volumes] keeps naming the same object. *)
Lemma read_volumes_others (frame : io (list byte)) (sc : scans) (s : State) (l : Heap.loc) :
  l <> _volumes (self s) ->
  heap (snd (read_volumes frame sc s)) !! l = heap s !! l /\
  _volumes (self (snd (read_volumes frame sc s))) = _volumes (self s).
Proof.
  intros Hl. unfold read_volumes, try_except, bind, gets, modify.
  destruct frame as [bs |].
  - destruct (store_volumes_others (read_result (_channels (self s)) bs)
                (seq 0 (Z.to_nat (_channels (self s))))
                (log (ERead (_channels (self s))) s) l Hl) as [Hh Hs].
    destruct (store_volumes _ _ _) as [[[] | e |] s1]; simpl in *;
      [split; [exact Hh | now rewrite Hs] | | split; [exact Hh | now rewrite Hs]].
    destruct (decide (e = SerialException)); [| simpl; split; [exact Hh | now rewrite Hs]].
    destruct (keeps_connect sc s1) as [Hh' Hv']. rewrite Hh', Hv'.
    split; [exact Hh | now rewrite Hs].
  - simpl. destruct (keeps_connect sc (log (ERead (_channels (self s))) s)) as [Hh' Hv'].
    now rewrite Hh', Hv'.
Qed.

Lemma mixer_listener_others (reads : list (io (list byte) * scans)) (s : State)
    (l : Heap.loc) :
  l <> _volumes (self s) ->
  heap (snd (_mixer_listener reads s)) !! l = heap s !! l.
Proof.
  revert s. induction reads as [| [frame sc] reads IH]; intros s Hl; [done |].
  simpl. unfold bind.
  destruct (read_volumes_others frame sc s l Hl) as [Hh Hv].
  destruct (read_volumes frame sc s) as [[[] | e |] s1]; simpl in *; try done.
  rewrite IH by now rewrite Hv. exact Hh.
Qed.

(** X7. A list returned by [get_volumes] is out of the mixer's reach: it is
    a list object other than the stored one, and it holds after any number
    of later turns of [_mixer_listener] what it held when it was returned,
    whatever frames arrive and whatever the reads and reconnects do. *)
Theorem copy_survives_later_reads (reads : list (io (list byte) * scans))
    (s s1 : State) (l : Heap.loc) :
  well_formed s ->
  get_volumes s = (Returned l, s1) ->
  l <> _volumes (self s1) /\
  Heap.get (heap (snd (_mixer_listener reads s1))) l = Heap.get (heap s1) l.
Proof.
  intros Hwf Hcopy.
  destruct (get_volumes_copy s Hwf) as (l' & s1' & Hcopy' & _ & Hne & Hget & _ & Hself & _).
  rewrite Hcopy in Hcopy'. injection Hcopy' as <- <-.
  assert (Hne' : l <> _volumes (self s1)) by now rewrite Hself.
  split; [exact Hne' |].
  unfold Heap.get. now rewrite mixer_listener_others.
Qed.

Lemma copy_survives_later_reads_witness :
  Heap.get (heap (snd (_mixer_listener
                         [(Ok [x32; x50], []); (Fail, [[(arduino, hardware x02)]]);
                          (Ok [x00; x64], [])]
                         (set_heap (heap two_channel_session ++ [stored two_channel_session])
                            two_channel_session)))) 1%nat
  = [0.1%float; 0.2%float].
Proof.
  refine (eq_trans (proj2 (copy_survives_later_reads
            [(Ok [x32; x50], []); (Fail, [[(arduino, hardware x02)]]); (Ok [x00; x64], [])]
            two_channel_session _ 1%nat _ eq_refl)) _).
  - unfold well_formed. vm_compute. lia.
  - reflexivity.
Defined.

(** *** The range of the stored volumes *)

Lemma decoded_in_unit_range (vs : list byte) :
  Forall (fun b => (Byte.to_N b <= 100)%N) vs ->
  Forall in_unit_range (decode <$> vs).
Proof.
  intros Hvs. apply Forall_fmap. eapply Forall_impl; [exact Hvs |].
  intros b Hb. destruct (decode_in_unit_range b Hb). now split.
Qed.

Lemma read_volumes_unit_range (frame : io (list byte)) (sc : scans) (s : State) :
  well_formed s ->
  conformant_frame frame ->
  Forall in_unit_range (stored s) ->
  Forall in_unit_range (stored (snd (read_volumes frame sc s))).
Proof.
  intros Hwf Hframe Hs. destruct frame as [bs |].
  - destruct (read_volumes_frame_result bs sc s Hwf) as (_ & -> & _).
    apply Forall_app. split.
    + apply Forall_take, decoded_in_unit_range. unfold read_result.
      now apply Forall_take.
    + now apply Forall_drop.
  - change (read_volumes Fail sc s)
      with (_connect_mixer sc (log (ERead (_channels (self s))) s)).
    now rewrite keeps_stored by apply keeps_connect.
Qed.

Lemma mixer_listener_unit_range (reads : list (io (list byte) * scans)) (s : State) :
  well_formed s ->
  Forall (fun r => conformant_frame (fst r)) reads ->
  Forall in_unit_range (stored s) ->
  Forall in_unit_range (stored (snd (_mixer_listener reads s))).
Proof.
  revert s. induction reads as [| [frame sc] reads IH]; intros s Hwf Hreads Hs; [done |].
  apply Forall_cons in Hreads as [Hframe Hreads]. simpl in Hframe.
  simpl. unfold bind.
  pose proof (read_volumes_unit_range frame sc s Hwf Hframe Hs) as Hs1.
  destruct (read_volumes_length frame sc s Hwf) as [Hwf1 _].
  destruct (read_volumes frame sc s) as [[[] | e |] s1]; simpl in *; try done.
  now apply IH.
Qed.

(** X8. As long as every frame byte is at most 100, every stored volume is
    between 0.0 and 1.0: this holds after [Mixer()] and after any number of
    turns of [_mixer_listener], across transport errors and reconnects, and
    so for every list that [get_volumes] returns. *)
Theorem volumes_stay_in_unit_range (sc : scans) (frame : io (list byte)) (sc' : scans)
    (reads : list (io (list byte) * scans)) :
  conformant_frame frame ->
  Forall (fun r => conformant_frame (fst r)) reads ->
  let s1 := snd (_mixer_listener reads (snd (Mixer_init sc frame sc'))) in
  Forall in_unit_range (stored s1) /\
  forall l s2, get_volumes s1 = (Returned l, s2) ->
               Forall in_unit_range (Heap.get (heap s2) l).
Proof.
  intros Hframe Hreads s1.
  assert (Hwf0 : well_formed init_state) by (unfold well_formed; simpl; lia).
  assert (Hin0 : Forall in_unit_range (stored (snd (Mixer_init sc frame sc')))).
  { unfold Mixer_init, bind.
    pose proof (keeps_well_formed (_connect_mixer sc) init_state (keeps_connect sc) Hwf0) as Hwf1.
    pose proof (keeps_stored (_connect_mixer sc) init_state (keeps_connect sc)) as Hst1.
    assert (Hinit : Forall in_unit_range (stored init_state)) by (repeat constructor).
    destruct (_connect_mixer sc init_state) as [[[] | e |] sa]; simpl in *;
      try (rewrite Hst1; exact Hinit).
    apply read_volumes_unit_range; [exact Hwf1 | exact Hframe |].
    rewrite Hst1. exact Hinit. }
  destruct (Mixer_init_length sc frame sc') as [Hwf _].
  pose proof (mixer_listener_unit_range reads _ Hwf Hreads Hin0) as Hs1. fold s1 in Hs1.
  split; [exact Hs1 |].
  intros l s2 Hcopy.
  destruct (mixer_listener_length reads _ Hwf) as [Hwf1 _]. fold s1 in Hwf1.
  destruct (get_volumes_copy s1 Hwf1) as (l' & s2' & Hcopy' & _ & _ & Hget & _).
  rewrite Hcopy in Hcopy'. injection Hcopy' as <- <-. now rewrite Hget.
Qed.

Lemma volumes_stay_in_unit_range_witness :
  let s1 := snd (_mixer_listener [(Ok [x00; x64], []); (Fail, [[(arduino, hardware x02)]])]
                   (snd (Mixer_init [[(arduino, hardware x02)]] (Ok [x32; x50]) []))) in
  Forall in_unit_range (stored s1) /\
  forall l s2, get_volumes s1 = (Returned l, s2) ->
               Forall in_unit_range (Heap.get (heap s2) l).
Proof.
  apply (volumes_stay_in_unit_range [[(arduino, hardware x02)]] (Ok [x32; x50]) []
           [(Ok [x00; x64], []); (Fail, [[(arduino, hardware x02)]])]).
  - repeat constructor; vm_compute; discriminate.
  - repeat constructor; vm_compute; discriminate.
Defined.

(** X9. [Mixer()] with a mixer that is found (after any number of rounds of
    polling without an Arduino) and reports [n] channels, when the first
    frame has all its [n] bytes: the constructor returns exactly when [n]
    is at most 2 and raises IndexError otherwise; either way the port of
    that device is open, [_channels] is [n], and the first two channels of
    the frame (or all of them, if fewer) have been decoded into the list
    [[0, 0]]. *)
Theorem Mixer_init_outcome (idle : scans) (before after : list candidate)
    (i : ListPortInfo) (a : Answers) (n : byte) (later : scans)
    (bs : list byte) (sc' : scans) :
  Forall (Forall ignored) idle ->
  Forall ignored before ->
  conforming i a n ->
  length bs = N.to_nat (Byte.to_N n) ->
  let r := Mixer_init (idle ++ (before ++ (i, a) :: after) :: later) (Ok bs) sc' in
  let m := Nat.min (length bs) 2 in
  fst r = (if decide (length bs <= 2)%nat then Returned tt else Raised IndexError) /\
  stored (snd r) = take m (decode <$> bs) ++ drop m [0%float; 0%float] /\
  _channels (self (snd r)) = Z.of_N (Byte.to_N n) /\
  _port (self (snd r)) = {| portstr := Some (device i); is_open := true |}.
Proof.
  intros Hidle Hbefore Hconf Hlen r m.
  set (s1 := connected i (Z.of_N (Byte.to_N n)) (close_port init_state)).
  assert (Hconn : _connect_mixer (idle ++ (before ++ (i, a) :: after) :: later) init_state
                  = (Returned tt, s1)).
  { unfold _connect_mixer, bind at 1, modify. now apply scan_loop_finds_mixer. }
  assert (Hr : r = read_volumes (Ok bs) sc' s1).
  { subst r. unfold Mixer_init, bind at 1. now rewrite Hconn. }
  assert (Hwf : well_formed s1) by (unfold well_formed; simpl; lia).
  destruct (read_volumes_frame_result bs sc' s1 Hwf) as (Hout & Hst & Hself & _).
  assert (Hn : Z.to_nat (_channels (self s1)) = length bs).
  { simpl. rewrite Hlen. lia. }
  assert (Hvs : read_result (_channels (self s1)) bs = bs).
  { unfold read_result. rewrite Hn. apply firstn_all. }
  rewrite Hvs in Hout, Hst. rewrite Hn in Hout.
  change (stored s1) with [0%float; 0%float] in Hout, Hst.
  change (length [0%float; 0%float]) with 2%nat in Hout, Hst.
  rewrite Hr. fold m in Hout, Hst. repeat split.
  - rewrite Hout. subst m.
    destruct (decide (length bs <= 2)%nat), (decide (Nat.min (length bs) 2 = length bs));
      try reflexivity; lia.
  - exact Hst.
  - now rewrite Hself.
  - now rewrite Hself.
Qed.

Lemma Mixer_init_outcome_witness :
  fst (Mixer_init [[]; [(arduino, hardware x03)]] (Ok [x0a; x14; x1e]) []) = Raised IndexError /\
  fst (Mixer_init [[]; [(arduino, hardware x01)]] (Ok [x32]) []) = Returned tt /\
  stored (snd (Mixer_init [[]; [(arduino, hardware x01)]] (Ok [x32]) []))
  = [0.5%float; 0%float].
Proof.
  destruct (Mixer_init_outcome [[]] [] [] arduino (hardware x03) x03 [] [x0a; x14; x1e] [])
    as (H3 & _); [repeat constructor | constructor | apply hardware_conforming | reflexivity |].
  destruct (Mixer_init_outcome [[]] [] [] arduino (hardware x01) x01 [] [x32] [])
    as (H1 & Hst & _); [repeat constructor | constructor | apply hardware_conforming
                        | reflexivity |].
  split; [exact H3 |]. split; [exact H1 | exact Hst].
Defined.

(** * Further properties of the volume router *)

Lemma list_index_spec {A} `{EqDecision A} (x : A) (l : list A) (n : nat) :
  list_index x l = Some n <->
  l !! n = Some x /\ forall j, (j < n)%nat -> l !! j <> Some x.
Proof.
  split; [| intros [Hn Hfirst]; now apply list_index_found].
  revert n. induction l as [| y l IH]; intros n; [discriminate |].
  simpl. destruct (decide (y = x)) as [-> | Hne].
  - intros [= <-]. split; [reflexivity | intros j Hj; lia].
  - destruct (list_index x l) as [k |] eqn:Hk; [| discriminate].
    intros [= <-]. destruct (IH k eq_refl) as [Hlook Hfirst]. split; [exact Hlook |].
    intros [| j] Hj; simpl; [congruence | apply Hfirst; lia].
Qed.

Lemma list_index_none_iff {A} `{EqDecision A} (x : A) (l : list A) :
  list_index x l = None <-> x ∉ l.
Proof.
  split; [| apply list_index_none].
  induction l as [| y l IH]; [intros _; apply not_elem_of_nil |].
  simpl. destruct (decide (y = x)) as [-> | Hne]; [discriminate |].
  destruct (list_index x l); [discriminate |].
  intros _. apply not_elem_of_cons. split; [congruence | now apply IH].
Qed.

Lemma list_index_of_elem {A} `{EqDecision A} (x : A) (l : list A) :
  x ∈ l -> exists n, list_index x l = Some n /\ (n < length l)%nat.
Proof.
  intros Hin. destruct (list_index x l) as [n |] eqn:Hn.
  - exists n. split; [reflexivity |]. apply list_index_spec in Hn as [Hlook _].
    now apply lookup_lt_Some in Hlook.
  - now apply list_index_none_iff in Hn.
Qed.

(** X10. [any_controller] is the 1-based position of the first entry of
    [channels] that is exactly [["ANY"]], and [False] exactly when there is
    no such entry; so the index [any_controller - 1] that the router uses is
    never negative and is the 0-based position of that entry. *)
Theorem any_controller_is_first_catch_all (channels : list (list string)) :
  match any_controller_of channels with
  | Some c =>
      exists k, c = Z.of_nat k + 1 /\
                channels !! k = Some ["ANY"%string] /\
                (forall j, (j < k)%nat -> channels !! j <> Some ["ANY"%string]) /\
                forall volumes : list float, getitem volumes (c - 1) = volumes !! k
  | None => ["ANY"%string] ∉ channels
  end.
Proof.
  unfold any_controller_of.
  destruct (list_index ["ANY"%string] channels) as [k |] eqn:Hk.
  - apply list_index_spec in Hk as [Hlook Hfirst].
    exists k. repeat split; try done.
    intros volumes. replace (Z.of_nat k + 1 - 1) with (Z.of_nat k) by lia.
    apply getitem_nat.
  - now apply list_index_none_iff.
Qed.

Lemma getitem_elem {A} (l : list A) (j : Z) (v : A) :
  getitem l j = Some v -> v ∈ l.
Proof.
  unfold getitem.
  destruct (_ && _); [apply list_elem_of_lookup_2 |].
  destruct (_ && _); [apply list_elem_of_lookup_2 | discriminate].
Qed.

Lemma first_match_bounds (name : string) (k i : Z) (chs : list (list string)) :
  first_match name k chs = Some i -> k <= i < k + Z.of_nat (length chs).
Proof.
  revert k. induction chs as [| apps chs IH]; intros k; [discriminate |].
  simpl first_match. case_bool_decide.
  - intros [= <-]. simpl length. lia.
  - intros Hrest. apply IH in Hrest. simpl length. lia.
Qed.

(** The three things the loop body can do. *)
Lemma route_sink_cases (channels : list (list string)) (any_controller : option Z)
    (volumes : list float) (sink : listed) (p : Server) :
  let r := route_sink channels any_controller volumes sink p in
  r = (Returned tt, p) \/
  r = (Raised IndexError, p) \/
  exists v, v ∈ volumes /\ r = (Returned tt, after_set sink v p).
Proof.
  unfold route_sink.
  destruct (application_name (fst sink)) as [name |]; [| now left].
  destruct (String.eqb name ""); [now left |].
  assert (Hcase : forall j,
    let r := try_except (set_from volumes j sink) PulseOperationFailed (ret tt) p in
    r = (Returned tt, p) \/ r = (Raised IndexError, p) \/
    exists v, v ∈ volumes /\ r = (Returned tt, after_set sink v p)).
  { intros j. destruct (getitem volumes j) as [v |] eqn:Hv.
    - right. right. exists v. split; [now apply getitem_elem in Hv |].
      now apply guarded_set.
    - right. left. now apply guarded_set_out_of_range. }
  destruct (first_match name 0 channels) as [i |]; [apply Hcase |].
  destruct any_controller as [c |]; [apply Hcase | now left].
Qed.

Lemma after_set_changes (sink : listed) (v : float) (p : Server) :
  after_set sink v p <> p.
Proof.
  intros H. apply (f_equal (fun q => length (calls q))) in H.
  simpl in H. rewrite length_app in H. simpl in H. lia.
Qed.

Lemma after_set_volume (sink : listed) (v v' : float) (p : Server) :
  after_set sink v p = after_set sink v' p -> v = v'.
Proof.
  intros H. apply (f_equal calls) in H. simpl in H.
  apply app_inv_head in H. now injection H.
Qed.

(** X11. Streams with the same application name get the same volume: when
    the loop body sets the volume of one stream to [v], it sets the volume of
    any other stream with that name to [v] as well, whatever its index and
    whatever the server held before. *)
Theorem same_name_same_volume (channels : list (list string)) (any_controller : option Z)
    (volumes : list float) (sink1 sink2 : listed) (p1 p2 : Server) (v : float) :
  application_name (fst sink1) = application_name (fst sink2) ->
  route_sink channels any_controller volumes sink1 p1 = (Returned tt, after_set sink1 v p1) ->
  route_sink channels any_controller volumes sink2 p2 = (Returned tt, after_set sink2 v p2).
Proof.
  intros Hname. unfold route_sink. rewrite <- Hname.
  destruct (application_name (fst sink1)) as [name |];
    [| intros H; apply (f_equal snd) in H; cbn [snd] in H; symmetry in H;
       now destruct (after_set_changes sink1 v p1)].
  destruct (String.eqb name "");
    [intros H; apply (f_equal snd) in H; cbn [snd] in H; symmetry in H;
     now destruct (after_set_changes sink1 v p1) |].
  assert (Hcase : forall j,
    try_except (set_from volumes j sink1) PulseOperationFailed (ret tt) p1
      = (Returned tt, after_set sink1 v p1) ->
    try_except (set_from volumes j sink2) PulseOperationFailed (ret tt) p2
      = (Returned tt, after_set sink2 v p2)).
  { intros j. destruct (getitem volumes j) as [v' |] eqn:Hv.
    - rewrite (guarded_set volumes sink1 j v' p1 Hv). intros H.
      apply (f_equal snd) in H. cbn [snd] in H.
      apply after_set_volume in H as ->. now apply guarded_set.
    - now rewrite (guarded_set_out_of_range volumes sink1 j p1 Hv). }
  destruct (first_match name 0 channels) as [i |]; [apply Hcase |].
  destruct any_controller as [c |]; [apply Hcase |].
  intros H. apply (f_equal snd) in H. cbn [snd] in H. symmetry in H.
  now destruct (after_set_changes sink1 v p1).
Qed.

Lemma same_name_same_volume_witness :
  route_sink scenario_channels (any_controller_of scenario_channels) [0.3%float; 0.9%float]
    (stream 8 (Some "Browser"%string) Fail)
    {| volume := {[8%nat := 1%float]}; calls := [(1%nat, 0.3%float)] |}
  = (Returned tt,
     {| volume := {[8%nat := 1%float]};
        calls := [(1%nat, 0.3%float); (8%nat, 0.9%float)] |}).
Proof.
  exact (same_name_same_volume scenario_channels (any_controller_of scenario_channels)
           [0.3%float; 0.9%float]
           (stream 2 (Some "Browser"%string) (Ok tt)) (stream 8 (Some "Browser"%string) Fail)
           quiet_server {| volume := {[8%nat := 1%float]}; calls := [(1%nat, 0.3%float)] |}
           0.9%float eq_refl eq_refl).
Defined.

(** X12. In one turn of the loop over the enumerated streams, whatever its
    outcome, the volume-set calls are made in the order of the enumeration,
    at most one per enumerated stream, and every volume passed is an entry
    of the snapshot. *)
Theorem calls_follow_enumeration (channels : list (list string)) (any_controller : option Z)
    (volumes : list float) (sinks : list listed) (p : Server) :
  exists extra,
    calls (snd (route_sinks channels any_controller volumes sinks p)) = calls p ++ extra /\
    extra.*1 `sublist_of` ((fun sink : listed => index (fst sink)) <$> sinks) /\
    Forall (fun c => snd c ∈ volumes) extra.
Proof.
  revert p. induction sinks as [| sink sinks IH]; intros p.
  - exists []. simpl. rewrite app_nil_r. repeat split; [apply sublist_nil | constructor].
  - simpl route_sinks. unfold bind.
    destruct (route_sink_cases channels any_controller volumes sink p)
      as [Hr | [Hr | (v & Hv & Hr)]]; rewrite Hr.
    + destruct (IH p) as (extra & Hc & Hsub & Hin). exists extra.
      repeat split; [exact Hc | | exact Hin].
      rewrite fmap_cons. now apply sublist_cons.
    + exists []. simpl. rewrite app_nil_r.
      repeat split; [apply sublist_nil_l | constructor].
    + destruct (IH (after_set sink v p)) as (extra & Hc & Hsub & Hin).
      exists ((index (fst sink), v) :: extra). repeat split.
      * rewrite Hc. simpl. now rewrite <- app_assoc.
      * rewrite !fmap_cons. simpl. now apply sublist_skip.
      * constructor; [exact Hv | exact Hin].
Qed.

(** X13. The router changes the volume of no stream but those it
    enumerated with a usable name and found alive: over any number of turns
    of [listen], a stream index [j] that was never enumerated, or only
    without a name, with an empty name or as a vanished stream, keeps the
    volume the server held for it. *)
Theorem other_streams_keep_their_volume (channels : list (list string))
    (any_controller : option Z) (rounds : list (list float * list listed))
    (p : Server) (j : nat) :
  (forall volumes sinks sink,
      (volumes, sinks) ∈ rounds -> sink ∈ sinks -> index (fst sink) = j ->
      application_name (fst sink) = None \/
      application_name (fst sink) = Some ""%string \/
      snd sink = Fail) ->
  volume (snd (listen channels any_controller rounds p)) !! j = volume p !! j.
Proof.
  assert (Hone : forall volumes sink q,
    (index (fst sink) = j ->
     application_name (fst sink) = None \/ application_name (fst sink) = Some ""%string \/
     snd sink = Fail) ->
    volume (snd (route_sink channels any_controller volumes sink q)) !! j = volume q !! j).
  { intros volumes sink q Hj.
    destruct (route_sink_cases channels any_controller volumes sink q)
      as [Hr | [Hr | (v & _ & Hr)]]; rewrite Hr; try done.
    destruct (decide (index (fst sink) = j)) as [Heq | Hne].
    - destruct (Hj Heq) as [Hnone | [Hempty | Hfail]].
      + rewrite (route_sink_unnamed channels any_controller volumes sink q) in Hr by now left.
        apply (f_equal snd) in Hr. cbn [snd] in Hr. symmetry in Hr.
        now destruct (after_set_changes sink v q).
      + rewrite (route_sink_unnamed channels any_controller volumes sink q) in Hr by now right.
        apply (f_equal snd) in Hr. cbn [snd] in Hr. symmetry in Hr.
        now destruct (after_set_changes sink v q).
      + simpl. now rewrite Hfail.
    - simpl. destruct (snd sink); [| done]. now rewrite lookup_insert_ne. }
  assert (Hturn : forall volumes sinks q,
    (forall sink, sink ∈ sinks -> index (fst sink) = j ->
       application_name (fst sink) = None \/ application_name (fst sink) = Some ""%string \/
       snd sink = Fail) ->
    volume (snd (route_sinks channels any_controller volumes sinks q)) !! j = volume q !! j).
  { intros volumes sinks. induction sinks as [| sink sinks IH]; intros q Hsinks; [done |].
    simpl. unfold bind.
    pose proof (Hone volumes sink q (Hsinks sink ltac:(left))) as Hq.
    destruct (route_sink channels any_controller volumes sink q) as [[[] | e |] q1];
      simpl in *; try done.
    transitivity (volume q1 !! j); [| exact Hq].
    apply IH. intros s Hs. apply Hsinks. now right. }
  revert p. induction rounds as [| [volumes sinks] rounds IH]; intros p Hrounds; [done |].
  simpl. unfold bind.
  pose proof (Hturn volumes sinks p
                (fun sink Hs => Hrounds volumes sinks sink ltac:(left) Hs)) as Hp.
  destruct (route_sinks channels any_controller volumes sinks p) as [[[] | e |] p1];
    simpl in *; try done.
  transitivity (volume p1 !! j); [| exact Hp].
  apply IH. intros vs ss sink Hin. apply (Hrounds vs ss sink). now right.
Qed.

Lemma other_streams_keep_their_volume_witness :
  volume (snd (listen scenario_channels (any_controller_of scenario_channels)
                 [([0.3%float; 0.9%float],
                   [stream 1 (Some "Music Player"%string) (Ok tt);
                    stream 5 (Some "Browser"%string) Fail;
                    stream 5 None (Ok tt)])]
                 {| volume := {[5%nat := 1%float]}; calls := [] |})) !! 5%nat
  = Some 1%float.
Proof.
  refine (eq_trans (other_streams_keep_their_volume scenario_channels
            (any_controller_of scenario_channels)
            [([0.3%float; 0.9%float],
              [stream 1 (Some "Music Player"%string) (Ok tt);
               stream 5 (Some "Browser"%string) Fail;
               stream 5 None (Ok tt)])]
            {| volume := {[5%nat := 1%float]}; calls := [] |} 5%nat _) _).
  - intros volumes sinks sink Hround Hsink Hidx.
    in_listed. injection Hround as -> ->. in_listed; auto.
  - reflexivity.
Defined.

(** X14. With a catch-all entry in the routing table and a snapshot that has
    an entry for every routing entry, every stream with a non-empty
    application name gets exactly one volume-set call, carrying an entry of
    the snapshot; the loop body returns normally whether or not the stream
    is still alive. *)
Theorem catch_all_covers_every_named_stream (channels : list (list string))
    (volumes : list float) (sink : listed) (name : string) (p : Server) :
  ["ANY"%string] ∈ channels ->
  (length channels <= length volumes)%nat ->
  application_name (fst sink) = Some name ->
  name <> ""%string ->
  exists v,
    v ∈ volumes /\
    route_sink channels (any_controller_of channels) volumes sink p
    = (Returned tt, after_set sink v p).
Proof.
  intros Hany Hlen Hname Hne. unfold route_sink. rewrite Hname.
  apply String.eqb_neq in Hne. rewrite Hne.
  assert (Hcase : forall k : nat, (k < length channels)%nat ->
    exists v, v ∈ volumes /\
      try_except (set_from volumes (Z.of_nat k) sink) PulseOperationFailed (ret tt) p
      = (Returned tt, after_set sink v p)).
  { intros k Hk. destruct (lookup_lt_is_Some_2 volumes k) as [v Hv]; [lia |].
    exists v. split; [now apply list_elem_of_lookup_2 in Hv |].
    apply guarded_set. now rewrite getitem_nat. }
  destruct (first_match name 0 channels) as [i |] eqn:Hi.
  - apply first_match_bounds in Hi.
    replace i with (Z.of_nat (Z.to_nat i)) by lia. apply Hcase. lia.
  - unfold any_controller_of.
    destruct (list_index_of_elem _ _ Hany) as (k & -> & Hk).
    replace (Z.of_nat k + 1 - 1) with (Z.of_nat k) by lia. now apply Hcase.
Qed.

Lemma catch_all_covers_every_named_stream_witness :
  exists v,
    v ∈ [0.3%float; 0.9%float] /\
    route_sink default_channels (any_controller_of default_channels) [0.3%float; 0.9%float]
      (stream 4 (Some "Some Game"%string) Fail) quiet_server
    = (Returned tt, after_set (stream 4 (Some "Some Game"%string) Fail) v quiet_server).
Proof.
  apply (catch_all_covers_every_named_stream default_channels [0.3%float; 0.9%float]
           (stream 4 (Some "Some Game"%string) Fail) "Some Game" quiet_server).
  - right. left.
  - simpl. lia.
  - reflexivity.
  - discriminate.
Defined.

(** X15. A routing index outside the snapshot ends the router: when the
    first entry that holds a stream's name has a position the snapshot does
    not have, [volumes[i]] raises IndexError, which the [except] of the
    loop body does not catch; no call is made for that stream nor for the
    streams enumerated after it, and the exception leaves [listen]. *)
Theorem index_outside_snapshot_ends_listen (channels : list (list string))
    (any_controller : option Z) (volumes : list float)
    (pre post : list listed) (sink : listed) (name : string) (i : nat) (apps : list string)
    (rounds : list (list float * list listed)) (p p1 : Server) :
  route_sinks channels any_controller volumes pre p = (Returned tt, p1) ->
  application_name (fst sink) = Some name ->
  name <> ""%string ->
  channels !! i = Some apps -> name ∈ apps ->
  (forall j apps', (j < i)%nat -> channels !! j = Some apps' -> name ∉ apps') ->
  (length volumes <= i)%nat ->
  route_sink channels any_controller volumes sink p1 = (Raised IndexError, p1) /\
  route_sinks channels any_controller volumes (pre ++ sink :: post) p
    = (Raised IndexError, p1) /\
  listen channels any_controller ((volumes, pre ++ sink :: post) :: rounds) p
    = (Raised IndexError, p1).
Proof.
  intros Hpre Hname Hne Hi Hin Hfirst Hshort.
  assert (Hsink : route_sink channels any_controller volumes sink p1 = (Raised IndexError, p1)).
  { unfold route_sink. rewrite Hname. apply String.eqb_neq in Hne. rewrite Hne.
    rewrite (first_match_found name 0 channels i apps Hi Hin Hfirst).
    apply guarded_set_out_of_range. rewrite Z.add_0_l, getitem_nat.
    now apply lookup_ge_None. }
  assert (Hall : route_sinks channels any_controller volumes (pre ++ sink :: post) p
                 = (Raised IndexError, p1)).
  { rewrite route_sinks_app. unfold bind at 1. rewrite Hpre. simpl.
    unfold bind at 1. now rewrite Hsink. }
  repeat split; [exact Hsink | exact Hall |].
  simpl. unfold bind at 1. now rewrite Hall.
Qed.

Lemma index_outside_snapshot_ends_listen_witness :
  listen [["Music Player"]; ["Browser"]; ["Game"]]%string None
    [([0.3%float; 0.9%float],
      [stream 1 (Some "Music Player"%string) (Ok tt);
       stream 2 (Some "Game"%string) (Ok tt);
       stream 3 (Some "Browser"%string) (Ok tt)])]
    quiet_server
  = (Raised IndexError,
     {| volume := {[1%nat := 0.3%float]}; calls := [(1%nat, 0.3%float)] |}).
Proof.
  apply (proj2 (proj2 (index_outside_snapshot_ends_listen
           [["Music Player"]; ["Browser"]; ["Game"]]%string None [0.3%float; 0.9%float]
           [stream 1 (Some "Music Player"%string) (Ok tt)]
           [stream 3 (Some "Browser"%string) (Ok tt)]
           (stream 2 (Some "Game"%string) (Ok tt)) "Game" 2 ["Game"%string] []
           quiet_server
           {| volume := {[1%nat := 0.3%float]}; calls := [(1%nat, 0.3%float)] |}
           eq_refl eq_refl ltac:(discriminate) eq_refl ltac:(left)
           ltac:(intros [| [| j]] apps' Hj; [intros [= <-] | intros [= <-] | lia]; in_listed)
           ltac:(simpl; lia)))).
Defined.

(** * The two loops never return *)



(** * Properties of the start of the program *)

Import Startup.

Lemma append_empty_r (s : string) : s +:+ "" = s.
Proof.
  induction s as [| c s IH]; [done |].
  change (String c s +:+ "") with (String c (s +:+ "")). now rewrite IH.
Qed.

Lemma append_assoc (s1 s2 s3 : string) : (s1 +:+ s2) +:+ s3 = s1 +:+ s2 +:+ s3.
Proof.
  induction s1 as [| c s1 IH]; [done |].
  change ((String c s1 +:+ s2) +:+ s3) with (String c ((s1 +:+ s2) +:+ s3)).
  now rewrite IH.
Qed.

Lemma is_sep_comma_space : is_sep "," " " = true.
Proof. reflexivity. Qed.

Lemma is_sep_second (c c' : ascii) : is_sep c c' = true -> c' = " "%char.
Proof.
  unfold is_sep. intros H. apply andb_prop in H as [_ H]. now apply Ascii.eqb_eq in H.
Qed.

(** A piece without the separator, followed by the separator, is cut off
    whole. *)
Lemma split_cuts_piece (name rest cur : string) :
  has_sep name = false ->
  split_comma_space (name +:+ ", " +:+ rest) cur
  = (cur +:+ name) :: split_comma_space rest "".
Proof.
  revert cur. induction name as [| c name IH]; intros cur Hname.
  - change ("" +:+ ", " +:+ rest) with (String "," (String " " rest)).
    cbn [split_comma_space]. rewrite is_sep_comma_space. now rewrite append_empty_r.
  - destruct name as [| c' name'].
    + change (String c "" +:+ ", " +:+ rest) with (String c (String "," (String " " rest))).
      cbn [split_comma_space].
      replace (is_sep c ",") with false.
      * rewrite is_sep_comma_space. reflexivity.
      * symmetry. apply not_true_is_false. intros H. apply is_sep_second in H. discriminate.
    + cbn [has_sep] in Hname. apply orb_false_elim in Hname as [Hcc Hrest].
      change (String c (String c' name') +:+ ", " +:+ rest)
        with (String c (String c' (name' +:+ ", " +:+ rest))).
      change (split_comma_space (String c (String c' (name' +:+ ", " +:+ rest))) cur)
        with (if is_sep c c' then cur :: split_comma_space (name' +:+ ", " +:+ rest) ""
              else split_comma_space (String c' name' +:+ ", " +:+ rest)
                     (cur +:+ String c "")).
      rewrite Hcc. rewrite (IH (cur +:+ String c "") Hrest).
      now rewrite append_assoc.
Qed.

Lemma split_keeps_last_piece (name cur : string) :
  has_sep name = false ->
  split_comma_space name cur = [cur +:+ name].
Proof.
  revert cur. induction name as [| c name IH]; intros cur Hname.
  - cbn [split_comma_space]. now rewrite append_empty_r.
  - destruct name as [| c' name'].
    + reflexivity.
    + cbn [has_sep] in Hname. apply orb_false_elim in Hname as [Hcc Hrest].
      change (split_comma_space (String c (String c' name')) cur)
        with (if is_sep c c' then cur :: split_comma_space name' ""
              else split_comma_space (String c' name') (cur +:+ String c "")).
      rewrite Hcc. rewrite (IH (cur +:+ String c "") Hrest). now rewrite append_assoc.
Qed.

Lemma rstrip_trimmed (s : string) :
  (forall c, last_char s = Some c -> isspace c = false) -> rstrip s = s.
Proof.
  induction s as [| a s IH]; intros Hlast; [done |].
  simpl. destruct s as [| b s'].
  - simpl. rewrite (Hlast a eq_refl). reflexivity.
  - rewrite IH by (intros c Hc; now apply Hlast).
    now rewrite andb_false_r.
Qed.

Lemma strip_trimmed (s : string) : trimmed s -> strip s = s.
Proof.
  intros [Hfirst Hlast]. unfold strip.
  assert (lstrip s = s) as ->.
  { destruct s as [| c rest]; [done |]. simpl. now rewrite (Hfirst c rest eq_refl). }
  now apply rstrip_trimmed.
Qed.

(** X18. Writing and reading an option value: for a list of at least one
    name, where no name contains [", "] and none starts or ends with
    whitespace, the value made by joining the names with [", "] is read
    back as exactly that list. *)
Theorem parse_apps_of_joined_names (names : list string) :
  names <> [] ->
  Forall (fun name => has_sep name = false /\ trimmed name) names ->
  parse_apps (join_comma_space names) = names.
Proof.
  intros Hne Hall. unfold parse_apps.
  assert (Hsplit : split_comma_space (join_comma_space names) "" = names).
  { revert Hne. induction Hall as [| name rest [Hsep _] Hrest IH]; [done |].
    intros _. destruct rest as [| name' rest'].
    - simpl. now rewrite split_keeps_last_piece.
    - change (join_comma_space (name :: name' :: rest'))
        with (name +:+ ", " +:+ join_comma_space (name' :: rest')).
      rewrite split_cuts_piece by exact Hsep. simpl (_ +:+ _).
      now rewrite IH. }
  rewrite Hsplit. clear Hsplit Hne.
  induction Hall as [| name rest [_ Htrim] _ IH]; [done |].
  rewrite fmap_cons, IH. now rewrite strip_trimmed.
Qed.

Lemma parse_apps_of_joined_names_witness :
  parse_apps "Tauon Music Box, Firefox, VLC media player (LibVLC 3.0.18), WEBRTC VoiceEngine"
  = ["Tauon Music Box"; "Firefox"; "VLC media player (LibVLC 3.0.18)"; "WEBRTC VoiceEngine"]%string.
Proof.
  apply (parse_apps_of_joined_names
           ["Tauon Music Box"; "Firefox"; "VLC media player (LibVLC 3.0.18)";
            "WEBRTC VoiceEngine"]%string).
  - discriminate.
  - repeat (apply Forall_cons_2;
            [split; [reflexivity |];
             split; [intros c rest [= <- _]; reflexivity | intros c [= <-]; reflexivity] |]).
    constructor.
Defined.

Lemma lstrip_head (s : string) (c : ascii) (rest : string) :
  lstrip s = String c rest -> isspace c = false.
Proof.
  induction s as [| a s IH]; [discriminate |].
  simpl. destruct (isspace a) eqn:Ha; [exact IH | now intros [= <- _]].
Qed.

Lemma rstrip_head (s : string) (c : ascii) (r : string) :
  rstrip s = String c r -> exists rest, s = String c rest.
Proof.
  destruct s as [| a s]; [discriminate |].
  simpl. destruct (isspace a && (rstrip s =? "")%string); [discriminate |].
  intros [= <- _]. now exists s.
Qed.

Lemma rstrip_last (s : string) (c : ascii) :
  last_char (rstrip s) = Some c -> isspace c = false.
Proof.
  induction s as [| a s IH]; [discriminate |].
  simpl. destruct (rstrip s) as [| b r] eqn:Hr.
  - simpl. destruct (isspace a) eqn:Ha; [discriminate |].
    simpl. now intros [= <-].
  - rewrite andb_false_r. exact IH.
Qed.

Lemma strip_is_trimmed (s : string) : trimmed (strip s).
Proof.
  unfold strip. split.
  - intros c r Hs. destruct (rstrip_head _ _ _ Hs) as [rest Hl].
    now apply lstrip_head in Hl.
  - apply rstrip_last.
Qed.

(** X19. Every application name read from an option value is trimmed: it
    neither starts nor ends with a whitespace character, whatever the value
    is; and a value always gives at least one name (the empty value gives
    the single name [""]). *)
Theorem parsed_names_are_trimmed (value : string) :
  parse_apps value <> [] /\
  Forall trimmed (parse_apps value) /\
  Forall (fun name => strip name = name) (parse_apps value).
Proof.
  assert (Hne : forall s cur, split_comma_space s cur <> []).
  { intros s. induction s as [| c s IH]; intros cur; [done |].
    destruct s as [| c' s'].
    - done.
    - change (split_comma_space (String c (String c' s')) cur)
        with (if is_sep c c' then cur :: split_comma_space s' ""
              else split_comma_space (String c' s') (cur +:+ String c "")).
      destruct (is_sep c c'); [done | apply IH]. }
  unfold parse_apps. split; [| split].
  - intros H. apply fmap_nil_inv in H. now apply Hne in H.
  - apply Forall_fmap, Forall_forall. intros name _. apply strip_is_trimmed.
  - apply Forall_fmap, Forall_forall. intros name _. simpl.
    apply strip_trimmed, strip_is_trimmed.
Qed.

Section Loading.

Variable get : string -> string -> config_error + string.

Lemma read_entries_all (a m : nat) :
  (forall i, (a <= i < a + m)%nat -> exists v, get "PINS" (py_str i) = inr v) ->
  exists entries,
    read_entries get (seq a m) = inr entries /\
    length entries = m /\
    forall j v, (j < m)%nat -> get "PINS" (py_str (a + j)) = inr v ->
                entries !! j = Some (parse_apps v).
Proof.
  revert a. induction m as [| m IH]; intros a Hall.
  - exists []. repeat split. intros j v Hj. lia.
  - destruct (Hall a) as [v Hv]; [lia |].
    destruct (IH (S a)) as (entries & Hread & Hlen & Hnth); [intros i Hi; apply Hall; lia |].
    exists (parse_apps v :: entries). simpl. rewrite Hv, Hread. repeat split.
    + simpl. now rewrite Hlen.
    + intros [| j] v' Hj Hv'.
      * rewrite Nat.add_0_r in Hv'. simpl. congruence.
      * simpl. apply Hnth; [lia |]. now replace (S a + j)%nat with (a + S j)%nat by lia.
Qed.

Lemma read_entries_first_error (a m k : nat) (e : config_error) :
  (a <= k < a + m)%nat ->
  (forall i, (a <= i < k)%nat -> exists v, get "PINS" (py_str i) = inr v) ->
  get "PINS" (py_str k) = inl e ->
  read_entries get (seq a m) = inl e.
Proof.
  revert a. induction m as [| m IH]; intros a Hk Hbefore Hfail; [lia |].
  simpl. destruct (decide (a = k)) as [-> | Hne].
  - now rewrite Hfail.
  - destruct (Hbefore a) as [v ->]; [lia |].
    rewrite (IH (S a)); [done | lia | intros i Hi; apply Hbefore; lia | exact Hfail].
Qed.

(** X20. How the routing table is loaded, for [n = len(config.items())]:
    when every option ["1"] to [str(n)] of section [PINS] is there, the
    table has exactly [n] entries and entry [i - 1] is the parsed value of
    option [str(i)]; when the first missing one raises NoSectionError, the
    table is the built-in one; when it raises NoOptionError, no table is
    loaded and the exception leaves the program. *)
Theorem load_channels_outcome (n : nat) :
  ((forall i, (1 <= i <= n)%nat -> exists v, get "PINS" (py_str i) = inr v) ->
   exists channels,
     load_channels get n = inr channels /\
     length channels = n /\
     forall i v, (1 <= i <= n)%nat -> get "PINS" (py_str i) = inr v ->
                 channels !! (i - 1)%nat = Some (parse_apps v)) /\
  (forall k e,
     (1 <= k <= n)%nat ->
     (forall i, (1 <= i < k)%nat -> exists v, get "PINS" (py_str i) = inr v) ->
     get "PINS" (py_str k) = inl e ->
     load_channels get n = match e with
                           | NoSectionError => inr default_channels
                           | NoOptionError => inl NoOptionError
                           end).
Proof.
  split.
  - intros Hall.
    destruct (read_entries_all 1 n) as (entries & Hread & Hlen & Hnth);
      [intros i Hi; apply Hall; lia |].
    exists entries. unfold load_channels. rewrite Hread. repeat split; [exact Hlen |].
    intros i v Hi Hv. apply Hnth; [lia |]. now replace (1 + (i - 1))%nat with i by lia.
  - intros k e Hk Hbefore Hfail. unfold load_channels.
    rewrite (read_entries_first_error 1 n k e); [now destruct e | lia | exact Hbefore
                                                 | exact Hfail].
Qed.

End Loading.

Lemma load_channels_outcome_witness :
  (exists channels,
     load_channels two_option_config 2 = inr channels /\
     length channels = 2%nat /\
     forall i v, (1 <= i <= 2)%nat -> two_option_config "PINS" (py_str i) = inr v ->
                 channels !! (i - 1)%nat = Some (parse_apps v)) /\
  load_channels two_option_config 3 = inl NoOptionError /\
  load_channels (fun _ _ => inl NoSectionError) 1 = inr default_channels.
Proof.
  split; [| split].
  - apply (proj1 (load_channels_outcome two_option_config 2)).
    intros i Hi. assert (i = 1%nat \/ i = 2%nat) as [-> | ->] by lia; eexists; reflexivity.
  - apply (proj2 (load_channels_outcome two_option_config 3) 3%nat NoOptionError).
    + lia.
    + intros i Hi. assert (i = 1%nat \/ i = 2%nat) as [-> | ->] by lia; eexists; reflexivity.
    + reflexivity.
  - apply (proj2 (load_channels_outcome (fun _ _ => inl NoSectionError) 1)
             1%nat NoSectionError).
    + lia.
    + intros i Hi. lia.
    + reflexivity.
Defined.
